(** * Learning tracker: resource store, search, concept graph, statistics

    A shallow embedding of [learning_tracker.py] (class [LearningTracker])
    and the properties of its store and of the three views derived from
    it.

    Modelling choices.
    - A resource is a Python dict with the nine keys written by
      [add_resource].  A record loaded from the backing file may lack any
      of them, so every field is an [option]: [None] is "key absent".
      [resource["k"]] raises [KeyError] on an absent key, while
      [resource.get("k", d)] falls back to [d].
    - Python integers are unbounded: identifiers are [Z], counters and
      lengths are [nat].
    - Strings are sequences of 8-bit characters, the UTF-8 encoding of
      the Python text.  [str.lower()] is modelled on them by mapping A-Z
      to a-z and leaving every other character as it is, and
      [str.strip()] by removing the white space below 128.  Both are what
      Python does on ASCII text; beyond ASCII Python lowers other letters
      too (and lowers a capital sigma by its position in the word) and
      strips other white space (U+00A0 among others).  Besides its
      values on ASCII texts, the proofs below use of [lower] only that
      lowering twice is lowering once and
      that the empty string alone is lowered to the empty string, never
      that it distributes over concatenation; where a statement depends
      on [strip] leaving an entry as it is, it is restricted to ASCII
      entries.
    - The backing JSON file is modelled by its content: [None] when the
      file does not exist, [Some rs] when it holds the resource list [rs].
      Writing the file is modelled as always succeeding: the model's
      strings are encoded text, while [json.dump] raises
      [UnicodeEncodeError] on a Python string that has no UTF-8 encoding
      (a lone surrogate), after the list in memory has been changed.  No
      statement below says that [add_resource] or [_save_data] cannot
      raise.
    - [defaultdict(set)] and [defaultdict(int)] are [gmap]s read with a
      default; [set] is [gset].
    - Output written with [print] is not modelled, but the lookups made
      to build the text are: the message of [update_status] reads
      [resource['title']] and raises [KeyError] when that key is absent. *)

From Stdlib Require Import ZArith Ascii String.
From stdpp Require Import gmap strings list fin_maps.
From stdpp Require Import sorting.

Local Open Scope string_scope.
Local Open Scope Z_scope.

(** ** Strings: [str.lower()] and the substring test [q in s] *)

Definition lower_char (c : ascii) : ascii :=
  let n := nat_of_ascii c in
  if ((65 <=? n)%nat && (n <=? 90)%nat)%bool then ascii_of_nat (n + 32) else c.

Fixpoint lower (s : string) : string :=
  match s with
  | EmptyString => EmptyString
  | String c s' => String (lower_char c) (lower s')
  end.

(** [starts_with q s]: [s] begins with [q]. *)
Fixpoint starts_with (q s : string) : bool :=
  match q, s with
  | EmptyString, _ => true
  | String _ _, EmptyString => false
  | String a q', String b s' => if decide (a = b) then starts_with q' s' else false
  end.

(** [contains q s] is Python's [q in s] on strings: [q] occurs in [s] at
    some position. *)
Fixpoint contains (q s : string) : bool :=
  starts_with q s ||
  match s with
  | EmptyString => false
  | String _ s' => contains q s'
  end.

(** ** Exceptions *)

Inductive exn : Type :=
  | KeyError (key : string).

Inductive result (A : Type) : Type :=
  | Ok (a : A)
  | Raise (e : exn).

Arguments Ok {A} a.
Arguments Raise {A} e.

(** Sequencing: an exception raised by the first computation ends the
    whole. *)
Definition bind {A B : Type} (m : result A) (k : A → result B) : result B :=
  match m with
  | Ok a => k a
  | Raise e => Raise e
  end.

Notation "'try!' x := m 'in' k" := (bind m (fun x => k))
  (at level 10, x name, m at level 100, k at level 200, only parsing).

(** [d[key]] on a dict whose entry for [key] is [v]. *)
Definition getitem {A : Type} (key : string) (v : option A) : result A :=
  match v with
  | Some a => Ok a
  | None => Raise (KeyError key)
  end.

(** ** The data model *)

Record resource : Type := Resource {
  res_id : option Z;
  res_title : option string;
  res_type : option string;
  res_url : option string;
  res_tags : option (list string);
  res_concepts : option (list string);
  res_notes : option string;
  res_date_added : option string;
  res_status : option string
}.

(** [resource["status"] = status] *)
Definition set_status (status : string) (r : resource) : resource :=
  {| res_id := res_id r;
     res_title := res_title r;
     res_type := res_type r;
     res_url := res_url r;
     res_tags := res_tags r;
     res_concepts := res_concepts r;
     res_notes := res_notes r;
     res_date_added := res_date_added r;
     res_status := Some status |}.

(** Reads with a default: [resource.get("concepts", [])],
    [resource.get("tags", [])], [resource.get("status", "unknown")] and
    [resource.get("type", "unknown")]. *)
Definition concepts_of (r : resource) : list string := default [] (res_concepts r).
Definition tags_of (r : resource) : list string := default [] (res_tags r).
Definition status_of (r : resource) : string := default "unknown" (res_status r).
Definition type_of (r : resource) : string := default "unknown" (res_type r).

(** The tracker object together with the file it owns. *)
Record tracker : Type := Tracker {
  resources : list resource;
  db_file : option (list resource)
}.

Definition _load_data (file : option (list resource)) : list resource :=
  match file with
  | Some rs => rs
  | None => []
  end.

(** [LearningTracker(db_file)] *)
Definition init (file : option (list resource)) : tracker :=
  {| resources := _load_data file; db_file := file |}.

(** [json.dump] of the list into the file; see the note on encodable
    strings at the head of the file. *)
Definition _save_data (self : tracker) : tracker :=
  {| resources := resources self; db_file := Some (resources self) |}.

(** ** [add_resource] *)

(** [tags] and [concepts] are [None] when the caller leaves them out;
    [now] is the string produced by the clock. *)
Definition add_resource (title resource_type url : string)
    (tags : option (list string)) (notes : string)
    (concepts : option (list string)) (now : string)
    (self : tracker) : resource * tracker :=
  let tags := match tags with None => [] | Some l => l end in
  let concepts := match concepts with None => [] | Some l => l end in
  let resource :=
    {| res_id := Some (Z.of_nat (length (resources self)) + 1);
       res_title := Some title;
       res_type := Some resource_type;
       res_url := Some url;
       res_tags := Some tags;
       res_concepts := Some concepts;
       res_notes := Some notes;
       res_date_added := Some now;
       res_status := Some "in_progress" |} in
  (resource,
   _save_data {| resources := resources self ++ [resource];
                 db_file := db_file self |}).

(** ** [list_resources] *)

(** Python truthiness of an optional string argument. *)
Definition truthy (s : option string) : bool :=
  match s with
  | None => false
  | Some s => if decide (s = "") then false else true
  end.

Definition list_resources (status tag : option string)
    (self : tracker) : list resource :=
  let filtered := resources self in
  let filtered :=
    if truthy status
    then List.filter (fun r => bool_decide (res_status r = status)) filtered
    else filtered in
  let filtered :=
    if truthy tag
    then List.filter
           (fun r => bool_decide
              (lower (default "" tag) ∈ map lower (tags_of r)))
           filtered
    else filtered in
  filtered.

(** ** [search] *)

Definition any_contains (query_lower : string) (l : list string) : bool :=
  existsb (fun s => contains query_lower (lower s)) l.

(** The condition of the [if] in the loop of [search]; [or] evaluates its
    operands from left to right and stops at the first true one. *)
Definition search_test (query_lower : string) (r : resource) : result bool :=
  try! title := getitem "title" (res_title r) in
  if contains query_lower (lower title) then Ok true else
  try! notes := getitem "notes" (res_notes r) in
  if contains query_lower (lower notes) then Ok true else
  if any_contains query_lower (tags_of r) then Ok true else
  Ok (any_contains query_lower (concepts_of r)).

Fixpoint search_loop (query_lower : string) (rs : list resource)
    (results : list resource) : result (list resource) :=
  match rs with
  | [] => Ok results
  | r :: rs' =>
      try! b := search_test query_lower r in
      search_loop query_lower rs' (if b then results ++ [r] else results)
  end.

Definition search (query : string) (self : tracker) : result (list resource) :=
  search_loop (lower query) (resources self) [].

(** ** [update_status] *)

(** The loop of [update_status] over the resource list, up to the
    assignment [resource["status"] = status]: [Some (rs', resource)] when
    a record carried the identifier, with the list after the assignment
    and the record assigned to; [None] when the loop ran to its end. *)
Fixpoint update_loop (resource_id : Z) (status : string)
    (rs : list resource) : result (option (list resource * resource)) :=
  match rs with
  | [] => Ok None
  | r :: rs' =>
      try! i := getitem "id" (res_id r) in
      if decide (i = resource_id)
      then Ok (Some (set_status status r :: rs', set_status status r))
      else try! o := update_loop resource_id status rs' in
           Ok (option_map (fun found => (r :: fst found, snd found)) o)
  end.

(** After the assignment the list is saved, and only then the message
    is printed, which reads [resource['title']]: on a record without a
    title the call raises with the status already set and saved. *)
Definition update_status (resource_id : Z) (status : string)
    (self : tracker) : result (bool * tracker) :=
  try! o := update_loop resource_id status (resources self) in
  match o with
  | Some (rs', resource) =>
      let self' := _save_data {| resources := rs'; db_file := db_file self |} in
      try! title := getitem "title" (res_title resource) in
      Ok (true, self')
  | None => Ok (false, self)
  end.

(** The tracker that a call of [update_status] leaves behind, whether it
    returns or raises: a call that raises [KeyError("id")] has changed
    nothing, one that raises [KeyError("title")] has set the status and
    saved. *)
Definition after_update_status (resource_id : Z) (status : string)
    (self : tracker) : tracker :=
  match update_loop resource_id status (resources self) with
  | Ok (Some (rs', _)) => _save_data {| resources := rs'; db_file := db_file self |}
  | _ => self
  end.

(** ** [build_knowledge_graph] and [get_related_concepts] *)

(** The adjacency set read from a [defaultdict(set)]: empty for a key
    that has no entry. *)
Definition adj (graph : gmap string (gset string)) (c : string) : gset string :=
  default ∅ (graph !! c).

(** [graph[c1].add(c2)] *)
Definition graph_add (c1 c2 : string)
    (graph : gmap string (gset string)) : gmap string (gset string) :=
  <[c1 := adj graph c1 ∪ {[c2]}]> graph.

(** The inner loop: [for concept2 in concepts[i+1:]]. *)
Fixpoint connect_rest (concept1 : string) (rest : list string)
    (graph : gmap string (gset string)) : gmap string (gset string) :=
  match rest with
  | [] => graph
  | concept2 :: rest' =>
      connect_rest concept1 rest'
        (graph_add concept2 concept1 (graph_add concept1 concept2 graph))
  end.

(** The outer loop: [for i, concept1 in enumerate(concepts)]; the slice
    [concepts[i+1:]] is the tail behind the current element. *)
Fixpoint connect_all (concepts : list string)
    (graph : gmap string (gset string)) : gmap string (gset string) :=
  match concepts with
  | [] => graph
  | concept1 :: rest => connect_all rest (connect_rest concept1 rest graph)
  end.

Definition build_knowledge_graph (self : tracker) : gmap string (gset string) :=
  foldl (fun graph r => connect_all (concepts_of r) graph) ∅ (resources self).

(** [list(graph.get(concept, []))]: the members of the adjacency set in
    the order the set enumerates them. *)
Definition get_related_concepts (concept : string) (self : tracker) : list string :=
  let graph := build_knowledge_graph self in
  match graph !! concept with
  | Some s => elements s
  | None => []
  end.

(** ** [get_statistics] *)

Record statistics : Type := Statistics {
  total_resources : nat;
  by_status : gmap string nat;
  by_type : gmap string nat;
  unique_concepts : nat;
  unique_tags : nat
}.

(** [counter[k] += 1] on a [defaultdict(int)] *)
Definition incr (k : string) (counter : gmap string nat) : gmap string nat :=
  <[k := (default 0 (counter !! k) + 1)%nat]> counter.

(** The four accumulators of the loop. *)
Record stats_acc : Type := StatsAcc {
  acc_by_status : gmap string nat;
  acc_by_type : gmap string nat;
  acc_all_concepts : gset string;
  acc_all_tags : gset string
}.

Definition stats_step (acc : stats_acc) (r : resource) : stats_acc :=
  {| acc_by_status := incr (status_of r) (acc_by_status acc);
     acc_by_type := incr (type_of r) (acc_by_type acc);
     acc_all_concepts := acc_all_concepts acc ∪ list_to_set (concepts_of r);
     acc_all_tags := acc_all_tags acc ∪ list_to_set (tags_of r) |}.

Definition get_statistics (self : tracker) : statistics :=
  let total := length (resources self) in
  let acc := foldl stats_step
               {| acc_by_status := ∅; acc_by_type := ∅;
                  acc_all_concepts := ∅; acc_all_tags := ∅ |}
               (resources self) in
  {| total_resources := total;
     by_status := acc_by_status acc;
     by_type := acc_by_type acc;
     unique_concepts := size (acc_all_concepts acc);
     unique_tags := size (acc_all_tags acc) |}.

(** ** Sequences of calls *)

(** The two mutating calls of the interface, with their arguments. *)
Inductive call : Type :=
  | AddResource (title resource_type url : string)
      (tags : option (list string)) (notes : string)
      (concepts : option (list string)) (now : string)
  | UpdateStatus (resource_id : Z) (status : string).

Definition run_call (c : call) (self : tracker) : result tracker :=
  match c with
  | AddResource title resource_type url tags notes concepts now =>
      Ok (snd (add_resource title resource_type url tags notes concepts now self))
  | UpdateStatus resource_id status =>
      try! p := update_status resource_id status self in Ok (snd p)
  end.

Fixpoint run (calls : list call) (self : tracker) : result tracker :=
  match calls with
  | [] => Ok self
  | c :: calls' => try! self' := run_call c self in run calls' self'
  end.

(** A tracker that started empty, with no backing file or with one that
    holds the empty list, and has served a sequence of calls. *)
Definition reachable (self : tracker) : Prop :=
  ∃ file calls, _load_data file = [] ∧ run calls (init file) = Ok self.

(** The arguments of one [add_resource] call. *)
Record add_args : Type := AddArgs {
  arg_title : string;
  arg_type : string;
  arg_url : string;
  arg_tags : option (list string);
  arg_notes : string;
  arg_concepts : option (list string);
  arg_now : string
}.

Definition add_with (a : add_args) (self : tracker) : resource * tracker :=
  add_resource (arg_title a) (arg_type a) (arg_url a) (arg_tags a)
               (arg_notes a) (arg_concepts a) (arg_now a) self.

(** A sequence of [add_resource] calls: the records they return, in call
    order, and the tracker after the last one. *)
Fixpoint add_all (args : list add_args) (self : tracker) : list resource * tracker :=
  match args with
  | [] => ([], self)
  | a :: args' =>
      let '(r, self') := add_with a self in
      let '(created, self'') := add_all args' self' in
      (r :: created, self'')
  end.

(** ** Predicates used in the statements *)

(** [q] occurs in [s]: some prefix [a] and suffix [b] surround it. *)
Definition is_substring (q s : string) : Prop :=
  ∃ a b, s = a +:+ q +:+ b.

(** The match condition of the search, in the words of its description:
    the lowercased query is a substring of the lowercased title, or of
    the lowercased notes, or of some lowercased tag, or of some lowercased
    concept. *)
Definition matches (query : string) (r : resource) : Prop :=
  from_option (fun t => is_substring (lower query) (lower t)) False (res_title r) ∨
  from_option (fun n => is_substring (lower query) (lower n)) False (res_notes r) ∨
  Exists (fun t => is_substring (lower query) (lower t)) (tags_of r) ∨
  Exists (fun c => is_substring (lower query) (lower c)) (concepts_of r).

(** The two fields [search] reads with [resource[...]]. *)
Definition text_fields (r : resource) : Prop :=
  is_Some (res_title r) ∧ is_Some (res_notes r).

(** A record on which the test of [search] looks up a key that is not
    there: no title, or a title that does not match and no notes. *)
Definition lookup_fails (query_lower : string) (r : resource) : Prop :=
  res_title r = None ∨
  (∃ t, res_title r = Some t ∧ contains query_lower (lower t) = false ∧
        res_notes r = None).

(** Every key of the record is present, as in a record built by
    [add_resource]. *)
Definition complete (r : resource) : Prop :=
  is_Some (res_id r) ∧ is_Some (res_title r) ∧ is_Some (res_type r) ∧
  is_Some (res_url r) ∧ is_Some (res_tags r) ∧ is_Some (res_concepts r) ∧
  is_Some (res_notes r) ∧ is_Some (res_date_added r) ∧ is_Some (res_status r).

(** The record has an ["id"] key. *)
Definition has_id (r : resource) : Prop := is_Some (res_id r).

(** The three status values named by the comment in [add_resource]. *)
Definition status_domain : list string :=
  ["in_progress"; "completed"; "archived"].

Definition status_in_domain (r : resource) : Prop :=
  ∃ s, res_status r = Some s ∧ s ∈ status_domain.

(** A call that can only write a status of the domain. *)
Definition domain_call (c : call) : Prop :=
  match c with
  | AddResource _ _ _ _ _ _ _ => True
  | UpdateStatus _ status => status ∈ status_domain
  end.

(** [reachable] restricted to calls satisfying [domain_call]. *)
Definition reachable_in_domain (self : tracker) : Prop :=
  ∃ file calls,
    _load_data file = [] ∧ Forall domain_call calls ∧
    run calls (init file) = Ok self.

(** The records returned by a sequence of [add_resource] calls on a
    tracker opened on [file]. *)
Definition created (file : option (list resource)) (args : list add_args) : list resource :=
  fst (add_all args (init file)).

(** [a] and [b] stand at two different positions of the list. *)
Definition co_occur (cs : list string) (a b : string) : Prop :=
  ∃ i j, i ≠ j ∧ cs !! i = Some a ∧ cs !! j = Some b.

(** How many records of [rs] fall in bucket [s] under the labelling [f]. *)
Definition count_where (f : resource → string) (s : string)
    (rs : list resource) : nat :=
  length (filter (fun r => f r = s) rs).

(** A [dict] of counters has a key only for a bucket that was counted. *)
Definition optional_count (n : nat) : option nat :=
  if decide (n = 0%nat) then None else Some n.

(** The union of the string sets of all records. *)
Definition union_over (f : resource → list string) (rs : list resource) : gset string :=
  ⋃ (map (fun r => list_to_set (f r)) rs).

(** ** Sample stores *)

(** Two resources of the demo script, the second one then completed. *)
Definition demo_calls : list call :=
  [ AddResource "Python Decorators Explained" "article" "https://example.com/decorators"
      (Some ["python"; "advanced"; "functions"]) "Great explanation of how decorators work"
      (Some ["decorators"; "closures"; "first-class functions"]) "2024-01-01 10:00:00";
    AddResource "Understanding Closures" "article" "https://example.com/closures"
      (Some ["python"; "functions"; "advanced"]) "Deep dive into closure mechanics"
      (Some ["closures"; "scope"; "first-class functions"]) "2024-01-01 10:00:01";
    UpdateStatus 2 "completed" ].

Definition demo_tracker : tracker :=
  match run demo_calls (init None) with
  | Ok t => t
  | Raise _ => init None
  end.

(** The demo records as a store of their own, before anything was saved. *)
Definition sample_store : tracker :=
  {| resources := resources demo_tracker; db_file := None |}.

Definition sample_args : list add_args :=
  [ {| arg_title := "A"; arg_type := "article"; arg_url := "";
       arg_tags := None; arg_notes := ""; arg_concepts := Some ["x"; "y"; "z"];
       arg_now := "2024-01-01 10:00:00" |};
    {| arg_title := "B"; arg_type := "video"; arg_url := "";
       arg_tags := Some ["t"]; arg_notes := "n"; arg_concepts := None;
       arg_now := "2024-01-01 10:00:05" |} ].

(** One resource with the concepts x, y, z. *)
Definition xyz_store : tracker :=
  snd (add_resource "A" "article" "" None "" (Some ["x"; "y"; "z"])
         "2024-01-01 10:00:00" (init None)).

(** Two resources, with the concepts a, b and b, c. *)
Definition chain_store : tracker :=
  snd (add_resource "B" "article" "" None "" (Some ["b"; "c"])
         "2024-01-01 10:00:05"
         (snd (add_resource "A" "article" "" None "" (Some ["a"; "b"])
                 "2024-01-01 10:00:00" (init None)))).

(** One added resource whose status is then set to a string outside the
    domain. *)
Definition off_domain_calls : list call :=
  [ AddResource "A" "article" "" None "" None "2024-01-01 10:00:00";
    UpdateStatus 1 "done" ].

(** A record as an externally written file may hold it: no ["notes"]. *)
Definition no_notes_record : resource :=
  {| res_id := Some 1;
     res_title := Some "Rocq";
     res_type := Some "book";
     res_url := Some "";
     res_tags := Some [];
     res_concepts := Some [];
     res_notes := None;
     res_date_added := Some "2024-01-01 10:00:00";
     res_status := Some "in_progress" |}.

Definition no_notes_store : tracker := init (Some [no_notes_record]).

(** A record with no key at all. *)
Definition bare_record : resource :=
  {| res_id := None; res_title := None; res_type := None; res_url := None;
     res_tags := None; res_concepts := None; res_notes := None;
     res_date_added := None; res_status := None |}.

Definition bare_store : tracker := init (Some [bare_record]).

(** A store with a single resource that names the concept ["x"] twice,
    as [add_resource] builds it. *)
Definition repeated_concept_store : tracker :=
  snd (add_resource "A" "article" "" None "" (Some ["x"; "x"])
         "2024-01-01 10:00:00" (init None)).

(** A store with one resource that names a single concept. *)
Definition lone_concept_store : tracker :=
  snd (add_resource "A" "article" "" None "" (Some ["solo"])
         "2024-01-01 10:00:00" (init None)).

(** Three records with the statuses [in_progress], [completed],
    [completed]; the second one has no ["type"] key. *)
Definition three_status_store : tracker :=
  {| resources :=
       [ set_status "in_progress" no_notes_record;
         set_status "completed" bare_record;
         set_status "completed" no_notes_record ];
     db_file := None |}.

(** ** Further predicates and sample data *)

(** Every key of a record except ["status"]. *)
Definition other_fields (r : resource) :=
  (res_id r, res_title r, res_type r, res_url r, res_tags r, res_concepts r,
   res_notes r, res_date_added r).

(** The records the loop of [update_status] walks past: each has an
    identifier, and a different one. *)
Definition passed_over (resource_id : Z) (pre : list resource) : Prop :=
  Forall (fun x => ∃ i, res_id x = Some i ∧ i ≠ resource_id) pre.

(** The identifiers 1, ..., n in this order. *)
Definition ids_upto (n : nat) : list (option Z) :=
  map (fun k => Some (Z.of_nat k + 1)) (seq 0 n).

(** A file as another program may have written it: two records share the
    identifier 1 and a third one has no keys. *)
Definition shared_id_store : tracker :=
  init (Some [ no_notes_record; set_status "archived" no_notes_record; bare_record ]).

(** A file as another program may have written it: its one record has
    an identifier and a status but no ["title"] key. *)
Definition untitled_record : resource :=
  {| res_id := Some 7; res_title := None; res_type := None; res_url := None;
     res_tags := None; res_concepts := None; res_notes := None;
     res_date_added := None; res_status := Some "in_progress" |}.

Definition untitled_store : tracker := init (Some [untitled_record]).

(** What the status argument of [list_resources] lets through: without
    an argument, or with the empty string, every record; otherwise the
    records whose ["status"] key holds exactly that string. *)
Definition status_pass (status : option string) (r : resource) : Prop :=
  match status with
  | None => True
  | Some s => s = "" ∨ res_status r = Some s
  end.

(** What the tag argument lets through: without an argument, or with the
    empty string, every record; otherwise the records one of whose tags
    equals the argument up to letter case. *)
Definition tag_pass (tag : option string) (r : resource) : Prop :=
  match tag with
  | None => True
  | Some t => t = "" ∨ Exists (fun t' => lower t' = lower t) (tags_of r)
  end.

(** The outcomes of two searches agree up to the status of the records
    found. *)
Definition same_but_status (m m' : result (list resource)) : Prop :=
  match m, m' with
  | Ok res, Ok res' => map other_fields res = map other_fields res'
  | Raise e, Raise e' => e = e'
  | _, _ => False
  end.

(** [sum(counter.values())] *)
Definition sum_counts (counter : gmap string nat) : nat :=
  map_fold (fun _ n total => (n + total)%nat) 0%nat counter.

(** ** Comma-separated input (the add dialogues of [main] in both files) *)

(** The characters below 128 that [str.strip()] removes: tab to carriage
    return, the four separators 28-31 and the space.  Python removes
    white space beyond ASCII as well, which this test does not know. *)
Definition is_space (c : ascii) : bool :=
  let n := nat_of_ascii c in
  ((9 <=? n)%nat && (n <=? 13)%nat) || ((28 <=? n)%nat && (n <=? 32)%nat).

(** [s.split(sep)] for a one-character separator: the pieces between the
    separators, empty pieces included; never an empty list. *)
Fixpoint str_split (sep : ascii) (s : string) : list string :=
  match s with
  | EmptyString => [EmptyString]
  | String c s' =>
      if decide (c = sep) then EmptyString :: str_split sep s'
      else match str_split sep s' with
           | piece :: rest => String c piece :: rest
           | [] => [String c EmptyString]
           end
  end.

Fixpoint lstrip (s : string) : string :=
  match s with
  | EmptyString => EmptyString
  | String c s' => if is_space c then lstrip s' else s
  end.

Fixpoint rstrip (s : string) : string :=
  match s with
  | EmptyString => EmptyString
  | String c s' =>
      match rstrip s' with
      | EmptyString => if is_space c then EmptyString else String c EmptyString
      | t => String c t
      end
  end.

(** [s.strip()] *)
Definition str_strip (s : string) : string := rstrip (lstrip s).

(** [[t.strip() for t in text.split(",") if t.strip()]] *)
Definition parse_list (text : string) : list string :=
  flat_map (fun t => if decide (str_strip t = "") then [] else [str_strip t])
           (str_split "," text).

(** [sep.join(l)] *)
Fixpoint str_join (sep : string) (l : list string) : string :=
  match l with
  | [] => EmptyString
  | [x] => x
  | x :: l' => x +:+ sep +:+ str_join sep l'
  end.

(** The add form of the web interface, once submitted: nothing happens
    without a title; otherwise the two text fields are parsed, the
    resource is added and its status is set through
    [update_status(len(resources), status)]. *)
Definition submit_add_form (title resource_type url tags_input concepts_input
    status notes now : string) (self : tracker) : result tracker :=
  if truthy (Some title) then
    let tags := if truthy (Some tags_input) then parse_list tags_input else [] in
    let concepts :=
      if truthy (Some concepts_input) then parse_list concepts_input else [] in
    let self1 :=
      snd (add_resource title resource_type url (Some tags) notes (Some concepts)
             now self) in
    try! p := update_status (Z.of_nat (length (resources self1))) status self1 in
    Ok (snd p)
  else Ok self.

Definition first_char (s : string) : option ascii :=
  match s with
  | EmptyString => None
  | String c _ => Some c
  end.

Fixpoint last_char (s : string) : option ascii :=
  match s with
  | EmptyString => None
  | String c EmptyString => Some c
  | String _ s' => last_char s'
  end.

Fixpoint has_char (x : ascii) (s : string) : Prop :=
  match s with
  | EmptyString => False
  | String c s' => c = x ∨ has_char x s'
  end.

(** An entry as the parser produces it: not empty, without a comma, and
    without white space at either end. *)
Definition clean (t : string) : Prop :=
  t ≠ "" ∧ ¬ has_char "," t ∧
  (∀ c, first_char t = Some c → is_space c = false) ∧
  (∀ c, last_char t = Some c → is_space c = false).

(** [s.isascii()]: every character is below 128. *)
Fixpoint isascii (s : string) : bool :=
  match s with
  | EmptyString => true
  | String c s' => (nat_of_ascii c <? 128)%nat && isascii s'
  end.

(** ** [visualize_connections] *)

(** [sorted(...)] on strings: the order of [str] compares character
    codes from the left, which is [String.le]; a list has one sorted
    arrangement under it, so the sorting algorithm does not matter. *)
Definition sorted (l : list string) : list string := merge_sort String.le l.

(** The order in which [sorted(graph.items())] arranges the entries of a
    dict: by key, the keys being all different. *)
Definition key_le (p q : string * gset string) : Prop := String.le p.1 q.1.

#[global] Instance key_le_dec : RelDecision key_le :=
  fun p q => decide (String.le p.1 q.1).

Definition sorted_items (graph : gmap string (gset string)) :
    list (string * gset string) :=
  merge_sort key_le (map_to_list graph).

(** The line feed that starts some of the printed texts. *)
Definition nl : string := String "010" EmptyString.

(** The texts of the [print] calls. *)
Definition line_connections_for (concept : string) : string :=
  nl +:+ "📚 Connections for '" +:+ concept +:+ "':".
Definition line_bullet (related_concept : string) : string := "  • " +:+ related_concept.
Definition line_none_for (concept : string) : string :=
  "No connections found for '" +:+ concept +:+ "'".
Definition line_overview : string := nl +:+ "📊 Knowledge Graph Connections:".
Definition line_heading (concept : string) : string := nl +:+ concept +:+ ":".
Definition line_branch (conn : string) : string := "  └─ " +:+ conn.
Definition line_hint : string :=
  "No connections found. Add resources with concepts to build the graph!".

(** The function prints and returns nothing: the result is the list of
    the texts printed, one per [print] call. *)
Definition visualize_connections (concept : option string) (self : tracker) : list string :=
  let graph := build_knowledge_graph self in
  if truthy concept then
    let concept := default EmptyString concept in
    let related := default ∅ (graph !! concept) in
    if decide (related = ∅)
    then [line_none_for concept]
    else line_connections_for concept :: map line_bullet (sorted (elements related))
  else
    (line_overview ::
     flat_map
       (fun '(concept, connections) =>
          if decide (connections = ∅) then []
          else line_heading concept :: map line_branch (sorted (elements connections)))
       (sorted_items graph)) ++
    (if decide (graph = ∅) then [line_hint] else []).

(** ** The resource page of the web interface *)

(** The three filters of the page, each switched off by the choice
    ["All"]; [resources] is what [list_resources()] returned. *)
Definition page_filter (status_filter type_filter tag_filter : string)
    (self : tracker) : list resource :=
  let resources := list_resources None None self in
  let filtered_resources := resources in
  let filtered_resources :=
    if decide (status_filter ≠ "All")
    then List.filter (fun r => bool_decide (res_status r = Some status_filter))
           filtered_resources
    else filtered_resources in
  let filtered_resources :=
    if decide (type_filter ≠ "All")
    then List.filter (fun r => bool_decide (res_type r = Some type_filter))
           filtered_resources
    else filtered_resources in
  let filtered_resources :=
    if decide (tag_filter ≠ "All")
    then List.filter
           (fun r => bool_decide (lower tag_filter ∈ map lower (tags_of r)))
           filtered_resources
    else filtered_resources in
  filtered_resources.

(** [l.index(x)]: the first position of [x]; [None] stands for the
    [ValueError] raised when [x] is not in the list. *)
Fixpoint list_index (x : string) (l : list string) : option nat :=
  match l with
  | [] => None
  | y :: l' => if decide (y = x) then Some 0%nat else S <$> list_index x l'
  end.

(** The preselected entry of the status selector shown for a record:
    [["in_progress", "completed", "archived"].index(status)] with
    [status = resource.get('status', 'in_progress')]. *)
Definition status_selector_index (r : resource) : option nat :=
  list_index (default "in_progress" (res_status r))
             ["in_progress"; "completed"; "archived"].

(** A choice of a filter selector as an argument of [list_resources]. *)
Definition filter_choice (choice : string) : option string :=
  if decide (choice = "All") then None else Some choice.

(** ** Running the model *)

Example lower_mixed : lower "PyThOn 3.12 [Z]" = "python 3.12 [z]".
Proof. reflexivity. Qed.

Example contains_inner : contains "tho" "python" = true ∧ contains "no" "python" = false.
Proof. split; reflexivity. Qed.

Example demo_ids_and_statuses :
  map res_id (resources demo_tracker) = [Some 1; Some 2] ∧
  map res_status (resources demo_tracker) = [Some "in_progress"; Some "completed"] ∧
  db_file demo_tracker = Some (resources demo_tracker).
Proof. repeat split; reflexivity. Qed.

Example search_by_concept :
  ∃ r, search "SCOPE" demo_tracker = Ok [r] ∧ res_id r = Some 2.
Proof. eexists. split; reflexivity. Qed.

(** A record with an identifier and no title: the status is set and
    saved, then the message of [update_status] raises. *)
Example update_status_untitled :
  update_status 7 "completed" untitled_store = Raise (KeyError "title") ∧
  map res_status (resources (after_update_status 7 "completed" untitled_store))
    = [Some "completed"] ∧
  db_file (after_update_status 7 "completed" untitled_store)
    = Some [set_status "completed" untitled_record].
Proof. repeat split. Qed.

Example search_without_match : search "haskell" demo_tracker = Ok [].
Proof. reflexivity. Qed.

Example xyz_neighbours :
  adj (build_knowledge_graph xyz_store) "x" = {[ "y"; "z" ]} ∧
  adj (build_knowledge_graph xyz_store) "y" = {[ "x"; "z" ]}.
Proof. split; vm_compute; reflexivity. Qed.

Example chain_neighbours :
  adj (build_knowledge_graph chain_store) "a" = {[ "b" ]} ∧
  adj (build_knowledge_graph chain_store) "b" = {[ "a"; "c" ]} ∧
  adj (build_knowledge_graph chain_store) "c" = {[ "b" ]}.
Proof. repeat split; vm_compute; reflexivity. Qed.

(** ** Strings *)

Lemma lower_char_idemp c : lower_char (lower_char c) = lower_char c.
Proof. destruct c as [[] [] [] [] [] [] [] []]; reflexivity. Qed.

Lemma lower_idemp s : lower (lower s) = lower s.
Proof.
  induction s as [|c s IH]; simpl; [done|].
  by rewrite lower_char_idemp, IH.
Qed.

Lemma starts_with_spec q s :
  starts_with q s = true ↔ ∃ b, s = q +:+ b.
Proof.
  revert s. induction q as [|a q IH]; intros s; simpl.
  - split; [intros _; by exists s | done].
  - destruct s as [|b s].
    + split; [done | intros [? ?]; discriminate].
    + case_decide as Hab.
      * subst b. rewrite IH. split; intros [t Ht]; exists t.
        -- by rewrite Ht.
        -- by injection Ht.
      * split; [done|]. intros [t Ht]. injection Ht as -> _. done.
Qed.

Lemma contains_spec q s : contains q s = true ↔ is_substring q s.
Proof.
  unfold is_substring. induction s as [|c s IH].
  - simpl. rewrite orb_false_r, starts_with_spec. split.
    + intros [b Hb]. by exists "", b.
    + intros [a [b Hab]]. destruct a; [by exists b|discriminate].
  - cbn [contains]. rewrite orb_true_iff, starts_with_spec, IH. split.
    + intros [[b Hb] | [a [b Hab]]].
      * by exists "", b.
      * exists (String c a), b. simpl. by rewrite Hab.
    + intros [a [b Hab]]. destruct a as [|c' a].
      * left. by exists b.
      * right. simpl in Hab. injection Hab as _ Hs. by exists a, b.
Qed.

Lemma contains_empty s : contains "" s = true.
Proof. destruct s; reflexivity. Qed.

(** Both predicates are decidable, the first one by running [contains]. *)
Lemma is_substring_dec q s : Decision (is_substring q s).
Proof.
  refine (cast_if (decide (contains q s = true))); by rewrite <- contains_spec.
Defined.

#[global] Existing Instance is_substring_dec.

Lemma matches_dec query r : Decision (matches query r).
Proof.
  unfold matches. destruct (res_title r), (res_notes r); simpl; apply _.
Defined.

#[global] Existing Instance matches_dec.

Lemma any_contains_Exists ql l :
  any_contains ql l = true ↔ Exists (fun s => is_substring ql (lower s)) l.
Proof.
  unfold any_contains. rewrite existsb_exists, Exists_exists.
  split; intros [x [Hx Hc]]; exists x.
  - split; [by apply list_elem_of_In | by apply contains_spec].
  - split; [by apply list_elem_of_In | by apply contains_spec].
Qed.

(** ** The search loop *)

Lemma matches_contains q r t n :
  res_title r = Some t → res_notes r = Some n →
  matches q r ↔
    contains (lower q) (lower t) = true ∨
    contains (lower q) (lower n) = true ∨
    any_contains (lower q) (tags_of r) = true ∨
    any_contains (lower q) (concepts_of r) = true.
Proof.
  intros Ht Hn. unfold matches. rewrite Ht, Hn. simpl.
  by rewrite !contains_spec, !any_contains_Exists.
Qed.

Lemma search_test_matches q r :
  text_fields r → search_test (lower q) r = Ok (bool_decide (matches q r)).
Proof.
  intros [[t Ht] [n Hn]].
  pose proof (matches_contains q r t n Ht Hn) as Hm.
  unfold search_test. rewrite Ht, Hn. simpl.
  destruct (contains (lower q) (lower t)) eqn:E1.
  { f_equal. symmetry. apply bool_decide_eq_true, Hm. tauto. }
  destruct (contains (lower q) (lower n)) eqn:E2.
  { f_equal. symmetry. apply bool_decide_eq_true, Hm. tauto. }
  destruct (any_contains (lower q) (tags_of r)) eqn:E3.
  { f_equal. symmetry. apply bool_decide_eq_true, Hm. tauto. }
  f_equal.
  destruct (any_contains (lower q) (concepts_of r)) eqn:E4; symmetry.
  - apply bool_decide_eq_true, Hm. tauto.
  - apply bool_decide_eq_false. rewrite Hm. intros [?|[?|[?|?]]]; discriminate.
Qed.

Lemma search_loop_filter q rs acc :
  Forall text_fields rs →
  search_loop (lower q) rs acc = Ok (acc ++ filter (matches q) rs)%list.
Proof.
  intros Hrs. revert acc.
  induction Hrs as [|r rs Hr _ IH]; intros acc; simpl.
  - by rewrite app_nil_r.
  - rewrite (search_test_matches _ _ Hr). simpl.
    rewrite filter_cons. case_bool_decide as Hm.
    + rewrite decide_True by done. rewrite IH. by rewrite <- app_assoc.
    + rewrite decide_False by done. apply IH.
Qed.

Lemma search_test_raises ql r :
  (∃ e, search_test ql r = Raise e) ↔ lookup_fails ql r.
Proof.
  unfold search_test, lookup_fails.
  destruct (res_title r) as [t|]; simpl.
  - destruct (contains ql (lower t)) eqn:E1.
    { split; [intros [? ?]; discriminate|].
      intros [?|[t' [[= <-] [? _]]]]; congruence. }
    destruct (res_notes r) as [n|]; simpl.
    + split.
      * intros [e He]. repeat case_match; discriminate.
      * intros [?|[t' [_ [_ ?]]]]; discriminate.
    + split; [|by eauto]. intros _. right. by exists t.
  - split; [by left | by eauto].
Qed.

Lemma search_loop_raises ql rs acc :
  (∃ e, search_loop ql rs acc = Raise e) ↔ Exists (lookup_fails ql) rs.
Proof.
  revert acc. induction rs as [|r rs IH]; intros acc; simpl.
  - rewrite Exists_nil. split; [intros [? ?]; discriminate | done].
  - rewrite Exists_cons, <- search_test_raises.
    destruct (search_test ql r) as [b|e]; simpl.
    + rewrite IH. split; [by right|]. intros [[? ?]|?]; [discriminate|done].
    + split; eauto.
Qed.

(** ** Search: the result and its independence of letter case *)

(** C3. On a store whose records all carry a title and notes, [search q]
    returns exactly the resources matching [q], in store order, where a
    resource matches when the lowercased query is a substring of its
    lowercased title, notes, some tag or some concept.  The result depends
    on the query only through its lowercase form, so ["PYTHON"] and
    ["python"] give the same result, and the empty query returns every
    resource. *)
Theorem search_returns_matching_resources (self : tracker) :
  Forall text_fields (resources self) →
  (∀ q, search q self = Ok (filter (matches q) (resources self))) ∧
  (∀ q q', lower q = lower q' → search q self = search q' self) ∧
  (∀ q, search (lower q) self = search q self) ∧
  search "PYTHON" self = search "python" self ∧
  search "" self = Ok (resources self).
Proof.
  intros Hrs. split; [|split; [|split; [|split]]].
  - intros q. unfold search. by rewrite search_loop_filter.
  - intros q q' Hq. unfold search. by rewrite Hq.
  - intros q. unfold search. by rewrite lower_idemp.
  - reflexivity.
  - unfold search. rewrite search_loop_filter by done. simpl. f_equal.
    induction Hrs as [|r rs [[t Ht] _] _ IH]; [done|].
    rewrite filter_cons_True; [by rewrite IH|].
    left. rewrite Ht. simpl. apply contains_spec, contains_empty.
Qed.

Lemma search_returns_matching_resources_witness :
  Forall text_fields (resources sample_store) ∧
  search "CLOSURES" sample_store =
    Ok (filter (matches "CLOSURES") (resources sample_store)) ∧
  search "PYTHON" sample_store = search "python" sample_store.
Proof.
  assert (H : Forall text_fields (resources sample_store)).
  { repeat constructor; simpl; eauto. }
  destruct (search_returns_matching_resources sample_store H)
    as (Hfilter & _ & _ & Hcase & _).
  split; [exact H|]. split; [exact (Hfilter "CLOSURES") | exact Hcase].
Defined.

(** ** Records built by [add_resource] and kept by [update_status] *)

Lemma complete_set_status s r : complete r → complete (set_status s r).
Proof. unfold complete. simpl. intuition eauto. Qed.

Lemma complete_text_fields r : complete r → text_fields r.
Proof. unfold complete, text_fields. tauto. Qed.

(** What a successful [update_loop] did: it changed the status of the
    first record carrying the identifier and nothing else. *)
Lemma update_loop_Some rid s rs rs' m :
  update_loop rid s rs = Ok (Some (rs', m)) →
  ∃ pre r post,
    rs = (pre ++ r :: post)%list ∧ rs' = (pre ++ set_status s r :: post)%list ∧
    res_id r = Some rid ∧ m = set_status s r ∧
    Forall (fun x => ∃ i, res_id x = Some i ∧ i ≠ rid) pre.
Proof.
  revert rs'. induction rs as [|r rs IH]; intros rs'; simpl; [discriminate|].
  destruct (res_id r) as [i|] eqn:Hi; simpl; [|discriminate].
  case_decide as Hrid.
  - intros [= <- <-]. exists [], r, rs. subst i. by repeat split.
  - destruct (update_loop rid s rs) as [[[rs'' m']|]|] eqn:Hl; simpl; try discriminate.
    intros [= <- <-].
    destruct (IH _ eq_refl) as (pre & x & post & -> & -> & Hx & -> & Hpre).
    exists (r :: pre), x, post. repeat split; [done|].
    constructor; [by exists i | done].
Qed.

Lemma update_loop_Forall (P : resource → Prop) rid s rs rs' m :
  (∀ r, res_id r = Some rid → P r → P (set_status s r)) →
  Forall P rs → update_loop rid s rs = Ok (Some (rs', m)) → Forall P rs'.
Proof.
  intros HP Hrs Hl.
  destruct (update_loop_Some _ _ _ _ _ Hl) as (pre & r & post & -> & -> & Hr & _ & _).
  apply Forall_app in Hrs as [Hpre Hpost]. apply Forall_cons in Hpost as [Hx Hpost].
  apply Forall_app. split; [done|]. constructor; [by apply HP | done].
Qed.

Lemma update_loop_absent rid s rs :
  Forall (fun r => ∃ i, res_id r = Some i ∧ i ≠ rid) rs →
  update_loop rid s rs = Ok None.
Proof.
  induction 1 as [|r rs (i & Hi & Hne) _ IH]; simpl; [done|].
  rewrite Hi. simpl. rewrite decide_False by done. by rewrite IH.
Qed.

Lemma update_loop_twice rid s rs :
  Forall has_id rs → (∃ r, r ∈ rs ∧ res_id r = Some rid) →
  ∃ rs' m, update_loop rid s rs = Ok (Some (rs', m)) ∧
           update_loop rid s rs' = Ok (Some (rs', m)).
Proof.
  induction 1 as [|r rs [i Hi] _ IH]; intros (x & Hx & Hxid).
  - by apply elem_of_nil in Hx.
  - simpl. rewrite Hi. simpl. case_decide as Hrid.
    + eexists _, _. split; [done|]. simpl. rewrite Hi. simpl.
      by rewrite decide_True by done.
    + apply elem_of_cons in Hx as [->|Hx]; [congruence|].
      destruct IH as (rs' & m & H1 & H2); [by eauto|].
      rewrite H1. simpl. eexists _, _. split; [done|]. simpl. rewrite Hi. simpl.
      rewrite decide_False by done. by rewrite H2.
Qed.

(** How a returning [update_status] call went. *)
Lemma update_status_Ok rid s self found self' :
  update_status rid s self = Ok (found, self') →
  (found = false ∧ self' = self ∧ update_loop rid s (resources self) = Ok None) ∨
  (found = true ∧
   ∃ rs' m, update_loop rid s (resources self) = Ok (Some (rs', m)) ∧
            is_Some (res_title m) ∧
            self' = {| resources := rs'; db_file := Some rs' |}).
Proof.
  unfold update_status.
  destruct (update_loop rid s (resources self)) as [[[rs' m]|]|]; simpl; [| |discriminate].
  - destruct (res_title m) as [t|] eqn:Ht; simpl; [|discriminate].
    intros [= <- <-]. right. split; [done|]. exists rs', m. by repeat split.
  - intros [= <- <-]. by left.
Qed.

(** Any property of the records that [add_resource] establishes for the
    new record and [update_status] keeps holds after every sequence of
    calls. *)
Section call_invariant.
Context (Q : call → Prop) (P : resource → Prop).
Hypothesis P_add :
  ∀ title ty url tags notes concepts now self,
    P (fst (add_resource title ty url tags notes concepts now self)).
Hypothesis P_update :
  ∀ rid s r, Q (UpdateStatus rid s) → P r → P (set_status s r).

Lemma run_call_Forall c self self' :
  Q c → Forall P (resources self) →
  run_call c self = Ok self' → Forall P (resources self').
Proof.
  intros Hc HP Hrun. destruct c as [title ty url tags notes concepts now|rid s].
  - injection Hrun as <-. simpl. apply Forall_app. split; [done|].
    constructor; [apply P_add | done].
  - simpl in Hrun.
    destruct (update_status rid s self) as [[found t]|] eqn:Hupd;
      simpl in Hrun; [|discriminate].
    injection Hrun as <-.
    apply update_status_Ok in Hupd as [(_ & -> & _)|(_ & rs' & m & Hl & _ & ->)]; [done|].
    simpl. eapply update_loop_Forall; [|exact HP|exact Hl].
    intros r _. by apply (P_update rid).
Qed.

Lemma run_Forall calls self self' :
  Forall Q calls → Forall P (resources self) →
  run calls self = Ok self' → Forall P (resources self').
Proof.
  revert self. induction calls as [|c calls IH]; intros self HQ HP.
  - by intros [= <-].
  - apply Forall_cons in HQ as [Hc HQ]. simpl.
    destruct (run_call c self) as [self1|] eqn:Hrun; simpl; [|discriminate].
    apply IH; [done|]. by apply (run_call_Forall c self).
Qed.

End call_invariant.

Lemma reachable_complete self :
  reachable self → Forall complete (resources self).
Proof.
  intros (file & calls & Hfile & Hrun).
  apply (run_Forall (fun _ => True) complete) with (calls := calls) (self := init file).
  - intros. unfold complete. simpl. repeat split; eauto.
  - intros. by apply complete_set_status.
  - by apply Forall_true.
  - simpl. rewrite Hfile. constructor.
  - exact Hrun.
Qed.

(** ** Status values *)

(** C2, as stated, fails: [update_status] stores whatever string it is
    given.  After one [add_resource] and [update_status(1, "done")] the
    only record has status ["done"]. *)
Lemma status_domain_counterexample :
  ∃ self,
    run off_domain_calls (init None) = Ok self ∧
    map res_status (resources self) = [Some "done"] ∧
    reachable self ∧ ¬ Forall status_in_domain (resources self).
Proof.
  eexists. split; [reflexivity|]. split; [reflexivity|]. split.
  - by exists None, off_domain_calls.
  - intros H. apply Forall_cons in H as [(s & [= <-] & Hs) _].
    unfold status_domain in Hs.
    repeat (apply elem_of_cons in Hs as [?|Hs]; [discriminate|]).
    by apply elem_of_nil in Hs.
Qed.

(** C2, amended.  In every state reached from the empty store by
    [add_resource] calls and by [update_status] calls whose status argument
    is one of [in_progress], [completed], [archived], every record's status
    is one of the three; [add_resource] gives the new record the status
    [in_progress], and a further [update_status] with a status of the
    domain keeps the property. *)
Theorem status_in_domain_invariant (self : tracker) :
  reachable_in_domain self →
  Forall status_in_domain (resources self) ∧
  (∀ a, res_status (fst (add_with a self)) = Some "in_progress") ∧
  (∀ rid s b self',
     s ∈ status_domain → update_status rid s self = Ok (b, self') →
     Forall status_in_domain (resources self')).
Proof.
  intros (file & calls & Hfile & Hcalls & Hrun).
  assert (Hadd : ∀ title ty url tags notes concepts now t,
            status_in_domain (fst (add_resource title ty url tags notes concepts now t))).
  { intros. exists "in_progress". split; [done|]. apply list_elem_of_here. }
  assert (Hinv : ∀ cs t t', Forall domain_call cs →
            Forall status_in_domain (resources t) → run cs t = Ok t' →
            Forall status_in_domain (resources t')).
  { intros cs t t'. apply (run_Forall domain_call status_in_domain); [exact Hadd|].
    intros rid s r Hs _. by exists s. }
  assert (Hself : Forall status_in_domain (resources self)).
  { apply (Hinv calls (init file)); [done| |done]. simpl. rewrite Hfile. constructor. }
  split; [done|]. split; [done|].
  intros rid s b self' Hs Hupd.
  apply (Hinv [UpdateStatus rid s] self); [|done|].
  { constructor; [exact Hs | constructor]. }
  simpl. by rewrite Hupd.
Qed.

Lemma status_in_domain_invariant_witness :
  reachable_in_domain demo_tracker ∧
  Forall status_in_domain (resources demo_tracker).
Proof.
  assert (H : reachable_in_domain demo_tracker).
  { exists None, demo_calls. split; [reflexivity|]. split; [|reflexivity].
    repeat constructor. }
  split; [exact H|]. exact (proj1 (status_in_domain_invariant demo_tracker H)).
Defined.

(** ** Identifiers *)

Lemma add_all_spec args self :
  resources (snd (add_all args self)) = (resources self ++ fst (add_all args self))%list ∧
  length (fst (add_all args self)) = length args ∧
  ∀ k r, fst (add_all args self) !! k = Some r →
         res_id r = Some (Z.of_nat (length (resources self) + k) + 1).
Proof.
  revert self. induction args as [|a args IH]; intros self.
  - simpl. split; [by rewrite app_nil_r|]. split; [done|]. intros k r Hk. done.
  - cbn [add_all].
    destruct (add_with a self) as [r0 self1] eqn:Ha.
    specialize (IH self1).
    destruct (add_all args self1) as [cr self2] eqn:Hall.
    destruct IH as (Hres & Hlen & Hid).
    unfold add_with, add_resource in Ha. injection Ha as <- <-. simpl in *.
    split; [by rewrite Hres, <- app_assoc|]. split; [by rewrite Hlen|].
    intros [|k] r Hk; simpl in Hk.
    + injection Hk as <-. simpl. do 2 f_equal. lia.
    + rewrite (Hid k r Hk). rewrite length_app. simpl. do 2 f_equal. lia.
Qed.

(** C4. Each [add_resource] call gives the new record the identifier
    "number of records in the store + 1"; over a sequence of such calls
    on an empty store the record created by call number [k] (counting
    from 0) has identifier [k + 1], identifiers increase strictly along
    the sequence, and the store holds the created records in call
    order. *)
Theorem add_assigns_insertion_position
    (file : option (list resource)) (args : list add_args) :
  _load_data file = [] →
  (∀ a self,
     res_id (fst (add_with a self)) = Some (Z.of_nat (length (resources self)) + 1) ∧
     resources (snd (add_with a self)) = (resources self ++ [fst (add_with a self)])%list) ∧
  length (created file args) = length args ∧
  resources (snd (add_all args (init file))) = created file args ∧
  (∀ k r, created file args !! k = Some r → res_id r = Some (Z.of_nat k + 1)) ∧
  (∀ i j ri rj, (i < j)%nat →
     created file args !! i = Some ri → created file args !! j = Some rj →
     ∃ idi idj, res_id ri = Some idi ∧ res_id rj = Some idj ∧ 0 < idi < idj).
Proof.
  intros Hfile.
  destruct (add_all_spec args (init file)) as (Hres & Hlen & Hid).
  unfold created. simpl in *. rewrite Hfile in *. simpl in *.
  split; [by intros a self|]. split; [done|]. split; [done|].
  split; [exact Hid|].
  intros i j ri rj Hij Hi Hj. exists (Z.of_nat i + 1), (Z.of_nat j + 1).
  rewrite (Hid _ _ Hi), (Hid _ _ Hj). repeat split; lia.
Qed.

Lemma add_assigns_insertion_position_witness :
  ∃ r1 r2 id1 id2,
    created None sample_args !! 0%nat = Some r1 ∧
    created None sample_args !! 1%nat = Some r2 ∧
    res_id r1 = Some id1 ∧ res_id r2 = Some id2 ∧ 0 < id1 < id2.
Proof.
  destruct (add_assigns_insertion_position None sample_args eq_refl)
    as (_ & _ & _ & _ & H).
  edestruct (H 0%nat 1%nat) as (id1 & id2 & H1 & H2 & Hlt);
    [lia | reflexivity | reflexivity |].
  eexists _, _, id1, id2.
  split; [reflexivity|]. split; [reflexivity|].
  split; [exact H1|]. split; [exact H2|exact Hlt].
Defined.

(** ** [update_status] on an absent and on a present identifier *)

(** C6. When every record carries an identifier different from the one
    asked for, [update_status] returns [False] without raising and leaves
    the tracker, its resource list and its file, as it was; so does
    [update_status(999, "completed")] on the empty store. *)
Theorem update_status_not_found (self : tracker) (resource_id : Z) (status : string) :
  (∀ r, r ∈ resources self → ∃ i, res_id r = Some i ∧ i ≠ resource_id) →
  update_status resource_id status self = Ok (false, self) ∧
  update_status 999 "completed" (init None) = Ok (false, init None).
Proof.
  intros Hno. split; [|reflexivity].
  unfold update_status. rewrite update_loop_absent; [done|].
  by apply Forall_forall.
Qed.

Lemma update_status_not_found_witness :
  update_status 7 "archived" demo_tracker = Ok (false, demo_tracker).
Proof.
  apply (update_status_not_found demo_tracker 7 "archived").
  intros r Hr. apply list_elem_of_In in Hr. simpl in Hr.
  destruct Hr as [<-|[<-|[]]]; eexists; (split; [reflexivity|lia]).
Defined.

(** C9. On a store whose records all carry an identifier, and a title
    where they carry the identifier asked for, and one of which carries
    that identifier, [update_status] returns [True] and saves a list in
    which a record with that identifier has the new status; a second call
    with the same arguments returns [True] again and leaves the state
    reached by the first call as it is. *)
Theorem update_status_idempotent (self : tracker) (resource_id : Z) (status : string) :
  Forall has_id (resources self) →
  (∀ r, r ∈ resources self → res_id r = Some resource_id → is_Some (res_title r)) →
  (∃ r, r ∈ resources self ∧ res_id r = Some resource_id) →
  ∃ self',
    update_status resource_id status self = Ok (true, self') ∧
    update_status resource_id status self' = Ok (true, self') ∧
    db_file self' = Some (resources self') ∧
    ∃ r, r ∈ resources self' ∧ res_id r = Some resource_id ∧
         res_status r = Some status.
Proof.
  intros Hids Htitles Hex.
  destruct (update_loop_twice resource_id status _ Hids Hex) as (rs' & m & H1 & H2).
  destruct (update_loop_Some _ _ _ _ _ H1) as (pre & r & post & Hrs & -> & Hr & -> & _).
  assert (Ht : is_Some (res_title r)).
  { apply Htitles; [|done]. rewrite Hrs. apply elem_of_app. right. apply list_elem_of_here. }
  destruct Ht as [t Ht].
  unfold update_status. rewrite H1. simpl. rewrite Ht. simpl.
  eexists. split; [done|]. simpl. rewrite H2. simpl. rewrite Ht. simpl.
  split; [done|]. split; [done|].
  exists (set_status status r). split; [|by split].
  apply elem_of_app. right. apply list_elem_of_here.
Qed.

Lemma update_status_idempotent_witness :
  ∃ self',
    update_status 1 "archived" demo_tracker = Ok (true, self') ∧
    update_status 1 "archived" self' = Ok (true, self').
Proof.
  destruct (update_status_idempotent demo_tracker 1 "archived")
    as (self' & H1 & H2 & _).
  - repeat constructor; unfold has_id; simpl; eauto.
  - intros r Hr _. apply list_elem_of_In in Hr. simpl in Hr.
    destruct Hr as [<-|[<-|[]]]; simpl; eauto.
  - eexists. split; [apply list_elem_of_here | reflexivity].
  - exists self'. exact (conj H1 H2).
Defined.

(** ** The concept graph *)

Section graph.
Implicit Types (g : gmap string (gset string)) (cs rest : list string).
Implicit Types (a b c : string).

Lemma adj_graph_add c1 c2 g a b :
  b ∈ adj (graph_add c1 c2 g) a ↔ b ∈ adj g a ∨ (a = c1 ∧ b = c2).
Proof.
  unfold graph_add. destruct (decide (a = c1)) as [->|Hne].
  - unfold adj at 1. rewrite lookup_insert_eq. simpl.
    rewrite elem_of_union, elem_of_singleton. tauto.
  - unfold adj at 1. rewrite lookup_insert_ne by done.
    fold (adj g a). tauto.
Qed.

Lemma dom_graph_add c1 c2 g a :
  a ∈ dom (graph_add c1 c2 g) ↔ a = c1 ∨ a ∈ dom g.
Proof.
  unfold graph_add. rewrite dom_insert, elem_of_union, elem_of_singleton. tauto.
Qed.

Lemma connect_rest_adj c1 rest g a b :
  b ∈ adj (connect_rest c1 rest g) a ↔
  b ∈ adj g a ∨ (a = c1 ∧ b ∈ rest) ∨ (b = c1 ∧ a ∈ rest).
Proof.
  revert g. induction rest as [|c2 rest IH]; intros g; simpl.
  - rewrite !elem_of_nil. tauto.
  - rewrite IH, !adj_graph_add, !elem_of_cons. intuition (subst; auto).
Qed.

Lemma connect_rest_dom c1 rest g a :
  a ∈ dom (connect_rest c1 rest g) ↔
  a ∈ dom g ∨ (rest ≠ [] ∧ (a = c1 ∨ a ∈ rest)).
Proof.
  revert g. induction rest as [|c2 rest IH]; intros g; simpl.
  - rewrite elem_of_nil. tauto.
  - rewrite IH, !dom_graph_add, !elem_of_cons.
    split.
    + intros [[->|[->|?]]|[_ [->|?]]]; auto 6.
    + intros [?|[_ [->|[->|Hin]]]]; auto.
      destruct rest as [|c3 rest]; [by apply elem_of_nil in Hin|].
      right. split; [done|]. by right.
Qed.

Lemma co_occur_nil a b : ¬ co_occur [] a b.
Proof. intros (i & j & _ & Hi & _). by destruct i. Qed.

Lemma co_occur_cons c cs a b :
  co_occur (c :: cs) a b ↔
  (a = c ∧ b ∈ cs) ∨ (b = c ∧ a ∈ cs) ∨ co_occur cs a b.
Proof.
  split.
  - intros (i & j & Hij & Hi & Hj). destruct i as [|i], j as [|j]; simpl in *.
    + done.
    + left. split; [congruence|]. apply list_elem_of_lookup. by exists j.
    + right; left. split; [congruence|]. apply list_elem_of_lookup. by exists i.
    + right; right. exists i, j. repeat split; [congruence|done|done].
  - intros [[-> Hb]|[[-> Ha]|(i & j & Hij & Hi & Hj)]].
    + apply list_elem_of_lookup in Hb as [j Hj]. by exists 0%nat, (S j).
    + apply list_elem_of_lookup in Ha as [i Hi]. by exists (S i), 0%nat.
    + exists (S i), (S j). repeat split; [congruence|done|done].
Qed.

Lemma co_occur_sym cs a b : co_occur cs a b → co_occur cs b a.
Proof. intros (i & j & Hij & Hi & Hj). exists j, i. by repeat split. Qed.

Lemma co_occur_NoDup cs a : NoDup cs → ¬ co_occur cs a a.
Proof.
  intros Hnd (i & j & Hij & Hi & Hj). apply Hij.
  by apply (NoDup_lookup cs i j a).
Qed.

Lemma connect_all_adj cs g a b :
  b ∈ adj (connect_all cs g) a ↔ b ∈ adj g a ∨ co_occur cs a b.
Proof.
  revert g. induction cs as [|c cs IH]; intros g; simpl.
  - pose proof (co_occur_nil a b). tauto.
  - rewrite IH, connect_rest_adj, co_occur_cons. tauto.
Qed.

Lemma connect_all_dom cs g a :
  a ∈ dom (connect_all cs g) ↔ a ∈ dom g ∨ (a ∈ cs ∧ (2 ≤ length cs)%nat).
Proof.
  revert g. induction cs as [|c cs IH]; intros g; simpl.
  - rewrite elem_of_nil. tauto.
  - rewrite IH, connect_rest_dom, elem_of_cons.
    destruct cs as [|c' cs]; simpl.
    + rewrite elem_of_nil. split.
      * intros [[?|[Hne _]]|[[] _]]; [by left | done].
      * intros [?|[_ ?]]; [by left; left | lia].
    + split.
      * intros [[?|[_ ?]]|[? _]].
        -- by left.
        -- right. split; [done|lia].
        -- right. split; [by right|lia].
      * intros [?|[? _]]; [by left; left|]. left; right. by split.
Qed.

(** Splitting "some record of [r :: rs]" into the head and the rest. *)
Ltac split_head r :=
  split;
  [ intros [[?|?]|(?x & ?Hx & ?Hco)];
    [ by left
    | right; exists r; split; [apply list_elem_of_here | done]
    | right; eexists; split; [by apply list_elem_of_further | done] ]
  | intros [?|(?x & [->|?Hx]%elem_of_cons & ?Hco)];
    [ by left; left
    | by left; right
    | right; eexists; by split ] ].

Lemma build_adj_from (rs : list resource) g a b :
  b ∈ adj (foldl (fun graph r => connect_all (concepts_of r) graph) g rs) a ↔
  b ∈ adj g a ∨ ∃ r, r ∈ rs ∧ co_occur (concepts_of r) a b.
Proof.
  revert g. induction rs as [|r rs IH]; intros g; simpl.
  - split; [auto|]. intros [?|(r & Hr & _)]; [done|]. by apply elem_of_nil in Hr.
  - rewrite IH, connect_all_adj. split_head r.
Qed.

Lemma build_dom_from (rs : list resource) g a :
  a ∈ dom (foldl (fun graph r => connect_all (concepts_of r) graph) g rs) ↔
  a ∈ dom g ∨ ∃ r, r ∈ rs ∧ a ∈ concepts_of r ∧ (2 ≤ length (concepts_of r))%nat.
Proof.
  revert g. induction rs as [|r rs IH]; intros g; simpl.
  - split; [auto|]. intros [?|(r & Hr & _)]; [done|]. by apply elem_of_nil in Hr.
  - rewrite IH, connect_all_dom. split_head r.
Qed.

(** The edges of the graph: the pairs of strings standing at two
    different positions of one resource's concept list. *)
Lemma build_knowledge_graph_adj self a b :
  b ∈ adj (build_knowledge_graph self) a ↔
  ∃ r, r ∈ resources self ∧ co_occur (concepts_of r) a b.
Proof.
  unfold build_knowledge_graph. rewrite build_adj_from.
  unfold adj at 1. rewrite lookup_empty. simpl. rewrite elem_of_empty. tauto.
Qed.

(** The keys of the graph: the concepts of the lists with at least two
    entries. *)
Lemma build_knowledge_graph_dom self a :
  a ∈ dom (build_knowledge_graph self) ↔
  ∃ r, r ∈ resources self ∧ a ∈ concepts_of r ∧ (2 ≤ length (concepts_of r))%nat.
Proof.
  unfold build_knowledge_graph. rewrite build_dom_from, dom_empty, elem_of_empty.
  tauto.
Qed.

Lemma elem_of_get_related_concepts self a b :
  b ∈ get_related_concepts a self ↔ b ∈ adj (build_knowledge_graph self) a.
Proof.
  unfold get_related_concepts, adj.
  destruct (build_knowledge_graph self !! a) as [s|]; simpl.
  - apply elem_of_elements.
  - by rewrite elem_of_nil, elem_of_empty.
Qed.

End graph.

Lemma co_occur_exists cs a :
  a ∈ cs → (2 ≤ length cs)%nat → ∃ b, co_occur cs a b.
Proof.
  intros [i Hi]%list_elem_of_lookup Hlen.
  destruct cs as [|c0 [|c1 cs]]; simpl in Hlen; [lia|lia|].
  destruct i as [|i].
  - exists c1, 0%nat, 1%nat. by repeat split.
  - exists c0, (S i), 0%nat. by repeat split.
Qed.

(** A string is its own neighbour exactly when one concept list holds it
    at two different positions. *)
Lemma self_loop_iff self c :
  c ∈ get_related_concepts c self ↔
  ∃ r, r ∈ resources self ∧ co_occur (concepts_of r) c c.
Proof. by rewrite elem_of_get_related_concepts, build_knowledge_graph_adj. Qed.

(** C1, as stated, fails: a resource whose concept list is [["x"; "x"]]
    makes ["x"] a neighbour of itself. *)
Lemma self_loop_counterexample :
  map concepts_of (resources repeated_concept_store) = [["x"; "x"]] ∧
  build_knowledge_graph repeated_concept_store !! "x" = Some {["x"]} ∧
  get_related_concepts "x" repeated_concept_store = ["x"] ∧
  ¬ (∀ self c, c ∉ get_related_concepts c self).
Proof.
  assert (H : get_related_concepts "x" repeated_concept_store = ["x"]).
  { vm_compute. reflexivity. }
  split; [reflexivity|]. split; [vm_compute; reflexivity|]. split; [exact H|].
  intros Hno. apply (Hno repeated_concept_store "x"). rewrite H.
  apply list_elem_of_here.
Qed.

(** C1, amended.  In a store where no resource's concept list holds the
    same string twice, no concept is among its own related concepts, and
    no key of the graph is a member of its own adjacency set. *)
Theorem no_self_loop_without_repeats (self : tracker) :
  Forall (fun r => NoDup (concepts_of r)) (resources self) →
  (∀ c, c ∉ get_related_concepts c self) ∧
  (∀ k s, build_knowledge_graph self !! k = Some s → k ∉ s).
Proof.
  intros Hnd.
  assert (Hadj : ∀ c, c ∉ adj (build_knowledge_graph self) c).
  { intros c. rewrite build_knowledge_graph_adj. intros (r & Hr & Hco).
    rewrite Forall_forall in Hnd. by apply (co_occur_NoDup _ c (Hnd r Hr)). }
  split.
  - intros c. rewrite elem_of_get_related_concepts. apply Hadj.
  - intros k s Hk. specialize (Hadj k). unfold adj in Hadj. by rewrite Hk in Hadj.
Qed.

Lemma no_self_loop_without_repeats_witness :
  Forall (fun r => NoDup (concepts_of r)) (resources sample_store) ∧
  "closures" ∉ get_related_concepts "closures" sample_store.
Proof.
  assert (H : Forall (fun r => NoDup (concepts_of r)) (resources sample_store)).
  { repeat constructor; simpl; rewrite ?elem_of_cons, ?elem_of_nil;
      intuition discriminate. }
  split; [exact H|].
  exact (proj1 (no_self_loop_without_repeats sample_store H) "closures").
Defined.

(** C5. The related-concept relation is symmetric: if [b] is related to
    [a] then [a] is related to [b]; in the mapping returned by
    [build_knowledge_graph], [a] and [b] are then both keys and each is in
    the other's adjacency set. *)
Theorem related_concepts_symmetric (self : tracker) (a b : string) :
  b ∈ get_related_concepts a self →
  a ∈ get_related_concepts b self ∧
  ∃ sa sb,
    build_knowledge_graph self !! a = Some sa ∧ b ∈ sa ∧
    build_knowledge_graph self !! b = Some sb ∧ a ∈ sb.
Proof.
  intros Hab.
  assert (Hba : a ∈ get_related_concepts b self).
  { revert Hab. rewrite !elem_of_get_related_concepts, !build_knowledge_graph_adj.
    intros (r & Hr & Hco). exists r. split; [done|]. by apply co_occur_sym. }
  split; [done|].
  assert (Hkey : ∀ x y, y ∈ get_related_concepts x self →
            ∃ s, build_knowledge_graph self !! x = Some s ∧ y ∈ s).
  { intros x y. unfold get_related_concepts.
    destruct (build_knowledge_graph self !! x) as [s|].
    - rewrite elem_of_elements. by exists s.
    - intros []%elem_of_nil. }
  destruct (Hkey a b Hab) as (sa & Ha & Hbsa).
  destruct (Hkey b a Hba) as (sb & Hb & Hasb).
  by exists sa, sb.
Qed.

Lemma related_concepts_symmetric_witness :
  "scope" ∈ get_related_concepts "closures" sample_store ∧
  "closures" ∈ get_related_concepts "scope" sample_store.
Proof.
  assert (H : "scope" ∈ get_related_concepts "closures" sample_store).
  { vm_compute. apply list_elem_of_here. }
  split; [exact H|].
  exact (proj1 (related_concepts_symmetric sample_store "closures" "scope" H)).
Defined.

(** C8. A concept that occurs only in concept lists of length at most 1
    is not a key of the graph, and its related concepts are the empty
    list; every key of the graph has a non-empty adjacency set. *)
Theorem concept_without_edge_absent (self : tracker) (c : string) :
  (∀ r, r ∈ resources self → c ∈ concepts_of r → (length (concepts_of r) ≤ 1)%nat) →
  build_knowledge_graph self !! c = None ∧
  get_related_concepts c self = [] ∧
  (∀ k s, build_knowledge_graph self !! k = Some s → s ≠ ∅).
Proof.
  intros Hlone.
  assert (Hnone : build_knowledge_graph self !! c = None).
  { apply not_elem_of_dom. rewrite build_knowledge_graph_dom.
    intros (r & Hr & Hc & Hlen). specialize (Hlone r Hr Hc). lia. }
  split; [done|]. split.
  - unfold get_related_concepts. by rewrite Hnone.
  - intros k s Hk Hs.
    assert (Hdom : k ∈ dom (build_knowledge_graph self)).
    { apply elem_of_dom. by exists s. }
    apply build_knowledge_graph_dom in Hdom as (r & Hr & Hkr & Hlen).
    destruct (co_occur_exists _ _ Hkr Hlen) as [b Hb].
    assert (Hadj : b ∈ adj (build_knowledge_graph self) k).
    { apply build_knowledge_graph_adj. by exists r. }
    unfold adj in Hadj. rewrite Hk in Hadj. simpl in Hadj. subst s.
    by apply elem_of_empty in Hadj.
Qed.

Lemma concept_without_edge_absent_witness :
  build_knowledge_graph lone_concept_store !! "solo" = None ∧
  get_related_concepts "solo" lone_concept_store = [].
Proof.
  assert (H : ∀ r, r ∈ resources lone_concept_store → "solo" ∈ concepts_of r →
              (length (concepts_of r) ≤ 1)%nat).
  { intros r Hr _. apply list_elem_of_In in Hr. simpl in Hr.
    destruct Hr as [<-|[]]. simpl. lia. }
  destruct (concept_without_edge_absent lone_concept_store "solo" H) as (H1 & H2 & _).
  exact (conj H1 H2).
Defined.

(** ** Statistics *)

Lemma stats_fold_by_status rs acc :
  acc_by_status (foldl stats_step acc rs) =
  foldl (fun m r => incr (status_of r) m) (acc_by_status acc) rs.
Proof. revert acc. induction rs as [|r rs IH]; intros acc; simpl; [done|]. by rewrite IH. Qed.

Lemma stats_fold_by_type rs acc :
  acc_by_type (foldl stats_step acc rs) =
  foldl (fun m r => incr (type_of r) m) (acc_by_type acc) rs.
Proof. revert acc. induction rs as [|r rs IH]; intros acc; simpl; [done|]. by rewrite IH. Qed.

Lemma stats_fold_concepts rs acc :
  acc_all_concepts (foldl stats_step acc rs) =
  acc_all_concepts acc ∪ union_over concepts_of rs.
Proof.
  revert acc. induction rs as [|r rs IH]; intros acc; simpl.
  - unfold union_over. simpl. by rewrite (right_id_L ∅ (∪)).
  - rewrite IH. simpl. unfold union_over. simpl. by rewrite (assoc_L (∪)).
Qed.

Lemma stats_fold_tags rs acc :
  acc_all_tags (foldl stats_step acc rs) =
  acc_all_tags acc ∪ union_over tags_of rs.
Proof.
  revert acc. induction rs as [|r rs IH]; intros acc; simpl.
  - unfold union_over. simpl. by rewrite (right_id_L ∅ (∪)).
  - rewrite IH. simpl. unfold union_over. simpl. by rewrite (assoc_L (∪)).
Qed.

Lemma lookup_incr k m s :
  incr k m !! s = if decide (k = s) then Some (default 0 (m !! s) + 1)%nat else m !! s.
Proof.
  unfold incr. case_decide as Hk.
  - subst. by rewrite lookup_insert_eq.
  - by rewrite lookup_insert_ne.
Qed.

Section counters.
Context (f : resource → string).
Implicit Types (rs : list resource) (m : gmap string nat) (s : string).

Lemma count_where_cons s r rs :
  count_where f s (r :: rs) =
  ((if decide (f r = s) then 1 else 0) + count_where f s rs)%nat.
Proof.
  unfold count_where. rewrite filter_cons. by case_decide.
Qed.

(** The counters after the loop, started from the counters [m]. *)
Lemma lookup_fold_incr rs m s :
  foldl (fun m r => incr (f r) m) m rs !! s =
  if decide (count_where f s rs = 0%nat) then m !! s
  else Some (default 0 (m !! s) + count_where f s rs)%nat.
Proof.
  revert m. induction rs as [|r rs IH]; intros m; [done|].
  cbn [foldl]. rewrite IH, count_where_cons, lookup_incr.
  destruct (decide (f r = s)) as [Hr|Hr];
    destruct (decide (count_where f s rs = 0%nat)) as [Hz|Hz];
    repeat case_decide; simpl in *; try lia; try done; f_equal; lia.
Qed.

Lemma lookup_fold_incr_empty rs s :
  foldl (fun m r => incr (f r) m) ∅ rs !! s = optional_count (count_where f s rs).
Proof.
  rewrite lookup_fold_incr, lookup_empty. unfold optional_count.
  by case_decide.
Qed.

End counters.

(** C7. [get_statistics] reports the number of records; for every status
    (and every type) the number of records carrying it, a record without
    the key counting as ["unknown"], with no entry for a value that no
    record carries; and the sizes of the unions of all concept lists and
    of all tag lists.  For records with the statuses [in_progress],
    [completed], [completed] the status counters are
    [{in_progress: 1, completed: 2}]. *)
Theorem get_statistics_counts (self : tracker) :
  total_resources (get_statistics self) = length (resources self) ∧
  (∀ s, by_status (get_statistics self) !! s =
        optional_count (count_where status_of s (resources self))) ∧
  (∀ t, by_type (get_statistics self) !! t =
        optional_count (count_where type_of t (resources self))) ∧
  (∀ r, res_status r = None → status_of r = "unknown") ∧
  (∀ r, res_type r = None → type_of r = "unknown") ∧
  unique_concepts (get_statistics self) = size (union_over concepts_of (resources self)) ∧
  unique_tags (get_statistics self) = size (union_over tags_of (resources self)) ∧
  (map res_status (resources self) =
     [Some "in_progress"; Some "completed"; Some "completed"] →
   by_status (get_statistics self) = {[ "in_progress" := 1%nat; "completed" := 2%nat ]}).
Proof.
  unfold get_statistics. cbn [total_resources by_status by_type unique_concepts unique_tags].
  split; [done|]. split; [|split; [|split; [|split; [|split; [|split]]]]].
  - intros s. rewrite stats_fold_by_status. apply lookup_fold_incr_empty.
  - intros t. rewrite stats_fold_by_type. apply lookup_fold_incr_empty.
  - intros r Hr. unfold status_of. by rewrite Hr.
  - intros r Hr. unfold type_of. by rewrite Hr.
  - rewrite stats_fold_concepts. simpl. by rewrite (left_id_L ∅ (∪)).
  - rewrite stats_fold_tags. simpl. by rewrite (left_id_L ∅ (∪)).
  - intros Hst. rewrite stats_fold_by_status. simpl.
    destruct (resources self) as [|r1 [|r2 [|r3 [|r4 rs]]]]; try discriminate.
    injection Hst as H1 H2 H3. simpl. unfold status_of. rewrite H1, H2, H3.
    vm_compute. reflexivity.
Qed.

Lemma get_statistics_counts_witness :
  map res_status (resources three_status_store) =
    [Some "in_progress"; Some "completed"; Some "completed"] ∧
  by_status (get_statistics three_status_store) =
    {[ "in_progress" := 1%nat; "completed" := 2%nat ]} ∧
  by_type (get_statistics three_status_store) !! "unknown" = Some 1%nat.
Proof.
  destruct (get_statistics_counts three_status_store)
    as (_ & _ & Hty & _ & _ & _ & _ & Hsc).
  split; [reflexivity|]. split; [exact (Hsc eq_refl)|].
  rewrite Hty. reflexivity.
Defined.

(** ** Records without a title or without notes *)

(** C10. [search] raises exactly when some record has no title, or has a
    title that does not contain the query and no notes.  On a store whose
    only record lacks its notes, a query that the title does not contain
    raises [KeyError("notes")]; on a record without any key every query
    raises [KeyError("title")]; [list_resources] and [get_statistics]
    return their results on the same stores.  On a store built by calls of
    [add_resource] and [update_status], [search] never raises. *)
Theorem search_needs_title_and_notes (self : tracker) (q : string) :
  ((∃ e, search q self = Raise e) ↔
     Exists (lookup_fails (lower q)) (resources self)) ∧
  search "python" no_notes_store = Raise (KeyError "notes") ∧
  search "rocq" no_notes_store = Ok [no_notes_record] ∧
  search q bare_store = Raise (KeyError "title") ∧
  list_resources None None no_notes_store = [no_notes_record] ∧
  list_resources (Some "in_progress") None no_notes_store = [no_notes_record] ∧
  list_resources (Some "in_progress") (Some "Python") bare_store = [] ∧
  get_statistics no_notes_store =
    {| total_resources := 1; by_status := {[ "in_progress" := 1%nat ]};
       by_type := {[ "book" := 1%nat ]}; unique_concepts := 0; unique_tags := 0 |} ∧
  get_statistics bare_store =
    {| total_resources := 1; by_status := {[ "unknown" := 1%nat ]};
       by_type := {[ "unknown" := 1%nat ]}; unique_concepts := 0; unique_tags := 0 |} ∧
  (reachable self → search q self = Ok (filter (matches q) (resources self))).
Proof.
  split; [apply search_loop_raises|].
  split; [reflexivity|]. split; [reflexivity|]. split; [reflexivity|].
  split; [reflexivity|]. split; [reflexivity|]. split; [reflexivity|].
  split; [vm_compute; reflexivity|]. split; [vm_compute; reflexivity|].
  intros Hreach. unfold search. rewrite search_loop_filter; [done|].
  eapply Forall_impl; [by apply reachable_complete|]. apply complete_text_fields.
Qed.

Lemma search_needs_title_and_notes_witness :
  reachable demo_tracker ∧
  search "SCOPE" demo_tracker = Ok (filter (matches "SCOPE") (resources demo_tracker)).
Proof.
  assert (H : reachable demo_tracker).
  { by exists None, demo_calls. }
  split; [exact H|].
  exact (proj2 (proj2 (proj2 (proj2 (proj2 (proj2 (proj2 (proj2 (proj2
    (search_needs_title_and_notes demo_tracker "SCOPE"))))))))) H).
Defined.

(** * Further properties of the store *)

(** ** Invariants of call sequences *)

Lemma run_invariant (I : tracker → Prop) :
  (∀ c self self', I self → run_call c self = Ok self' → I self') →
  ∀ calls self self', I self → run calls self = Ok self' → I self'.
Proof.
  intros Hstep calls. induction calls as [|c calls IH]; intros self self' HI.
  - by intros [= <-].
  - simpl. destruct (run_call c self) as [self1|] eqn:Hc; simpl; [|discriminate].
    apply IH. by apply (Hstep c self).
Qed.

(** The three outcomes of the loop of [update_status]. *)
Lemma update_loop_cases rid s rs :
  match update_loop rid s rs with
  | Ok (Some (rs', m)) =>
      ∃ pre r post,
        rs = (pre ++ r :: post)%list ∧ passed_over rid pre ∧ res_id r = Some rid ∧
        rs' = (pre ++ set_status s r :: post)%list ∧ m = set_status s r
  | Ok None => passed_over rid rs
  | Raise e =>
      e = KeyError "id" ∧
      ∃ pre r post,
        rs = (pre ++ r :: post)%list ∧ passed_over rid pre ∧ res_id r = None
  end.
Proof.
  induction rs as [|r rs IH]; simpl; [constructor|].
  destruct (res_id r) as [i|] eqn:Hi; simpl.
  - case_decide as Hrid.
    + subst i. exists [], r, rs. repeat split; [constructor|done].
    + assert (Hr : ∃ i, res_id r = Some i ∧ i ≠ rid) by eauto.
      destruct (update_loop rid s rs) as [[[rs' m]|]|e]; simpl.
      * destruct IH as (pre & x & post & -> & Hpre & Hx & -> & ->).
        exists (r :: pre), x, post. repeat split; [by constructor|done].
      * by constructor.
      * destruct IH as (-> & pre & x & post & -> & Hpre & Hx). split; [done|].
        exists (r :: pre), x, post. repeat split; [by constructor|done].
  - split; [done|]. exists [], r, rs. repeat split; [constructor|done].
Qed.

Lemma update_loop_found rid s pre r post :
  passed_over rid pre → res_id r = Some rid →
  update_loop rid s (pre ++ r :: post) =
  Ok (Some ((pre ++ set_status s r :: post)%list, set_status s r)).
Proof.
  intros Hpre Hr. induction Hpre as [|x pre (i & Hi & Hne) _ IH]; simpl.
  - rewrite Hr. simpl. by rewrite decide_True.
  - rewrite Hi. simpl. rewrite decide_False by done. by rewrite IH.
Qed.


Lemma other_fields_set_status s r : other_fields (set_status s r) = other_fields r.
Proof. reflexivity. Qed.

Lemma update_loop_other_fields rid s rs rs' m :
  update_loop rid s rs = Ok (Some (rs', m)) →
  map other_fields rs' = map other_fields rs.
Proof.
  intros Hl. pose proof (update_loop_cases rid s rs) as Hc. rewrite Hl in Hc.
  destruct Hc as (pre & r & post & -> & _ & _ & -> & _).
  by rewrite !map_app.
Qed.

(** The call on a list whose first record with the identifier asked for
    has a title. *)
Lemma update_status_found rid s self pre r post :
  resources self = (pre ++ r :: post)%list →
  passed_over rid pre → res_id r = Some rid → is_Some (res_title r) →
  update_status rid s self =
  Ok (true, {| resources := (pre ++ set_status s r :: post)%list;
               db_file := Some (pre ++ set_status s r :: post)%list |}).
Proof.
  intros Hrs Hpre Hr [t Ht]. unfold update_status.
  rewrite Hrs, update_loop_found by done. simpl. by rewrite Ht.
Qed.

(** A served [update_status] call returned. *)
Lemma run_call_update rid s t t' :
  run_call (UpdateStatus rid s) t = Ok t' →
  ∃ found, update_status rid s t = Ok (found, t').
Proof.
  simpl. destruct (update_status rid s t) as [[found t1]|]; simpl; [|discriminate].
  intros [= <-]. by exists found.
Qed.

(** X1. Whatever the backing file held at start-up and whatever calls
    were served, the file holds the list the tracker has in memory:
    opening a new tracker on the file gives the same state. *)
Theorem file_mirrors_memory (file : option (list resource)) (calls : list call)
    (self : tracker) :
  run calls (init file) = Ok self →
  _load_data (db_file self) = resources self ∧ init (db_file self) = self.
Proof.
  intros Hrun.
  assert (H : _load_data (db_file self) = resources self).
  { revert Hrun. apply (run_invariant (fun t => _load_data (db_file t) = resources t));
      [|done].
    intros c t t' Ht Hc. destruct c as [title ty url tags notes concepts now|rid s].
    - by injection Hc as <-.
    - apply run_call_update in Hc as [found Hc].
      by apply update_status_Ok in Hc as [(_ & -> & _)|(_ & rs' & m & _ & _ & ->)]. }
  split; [done|]. unfold init. rewrite H. by destruct self.
Qed.

Lemma file_mirrors_memory_witness :
  init (db_file demo_tracker) = demo_tracker.
Proof.
  exact (proj2 (file_mirrors_memory None demo_calls demo_tracker eq_refl)).
Defined.

Lemma ids_upto_S n : ids_upto (S n) = (ids_upto n ++ [Some (Z.of_nat n + 1)])%list.
Proof. unfold ids_upto. by rewrite seq_S, map_app. Qed.

Lemma length_ids_upto n : length (ids_upto n) = n.
Proof. unfold ids_upto. by rewrite length_map, length_seq. Qed.

Lemma lookup_ids_upto n k : (k < n)%nat → ids_upto n !! k = Some (Some (Z.of_nat k + 1)).
Proof.
  intros Hk. unfold ids_upto. rewrite list_lookup_fmap, lookup_seq_lt by done. done.
Qed.

Lemma reachable_ids self :
  reachable self → map res_id (resources self) = ids_upto (length (resources self)).
Proof.
  intros (file & calls & Hfile & Hrun). revert Hrun.
  apply (run_invariant (fun t => map res_id (resources t) = ids_upto (length (resources t)))).
  - intros c t t' Ht Hc. destruct c as [title ty url tags notes concepts now|rid s].
    + injection Hc as <-. simpl. rewrite map_app, length_app, Ht. simpl.
      by rewrite Nat.add_1_r, ids_upto_S.
    + apply run_call_update in Hc as [found Hc].
      apply update_status_Ok in Hc as [(_ & -> & _)|(_ & rs' & m & Hl & _ & ->)]; [done|].
      simpl. apply update_loop_other_fields in Hl.
      assert (Hids : map res_id rs' = map res_id (resources t)).
      { apply (f_equal (map (fun p => p.1.1.1.1.1.1.1))) in Hl.
        by rewrite <- !list_fmap_compose in Hl. }
      rewrite Hids, Ht. f_equal.
      apply (f_equal length) in Hl. by rewrite !length_map in Hl.
  - simpl. by rewrite Hfile.
Qed.

(** X2. In a store that started empty and was changed only through
    [add_resource] and [update_status], the record at position [k]
    (counting from 0) has the identifier [k + 1]; so no two records share
    an identifier. *)
Theorem reachable_ids_are_positions (self : tracker) :
  reachable self →
  (∀ k r, resources self !! k = Some r → res_id r = Some (Z.of_nat k + 1)) ∧
  NoDup (map res_id (resources self)).
Proof.
  intros Hreach. pose proof (reachable_ids self Hreach) as Hids.
  assert (Hpos : ∀ k r, resources self !! k = Some r → res_id r = Some (Z.of_nat k + 1)).
  { intros k r Hk.
    assert (Hm : map res_id (resources self) !! k = Some (res_id r)).
    { by rewrite list_lookup_fmap, Hk. }
    rewrite Hids, lookup_ids_upto in Hm; [congruence|].
    by apply lookup_lt_Some in Hk. }
  split; [done|]. apply NoDup_alt. intros i j x Hi Hj.
  rewrite list_lookup_fmap in Hi, Hj.
  destruct (resources self !! i) as [ri|] eqn:Hri; [|discriminate].
  destruct (resources self !! j) as [rj|] eqn:Hrj; [|discriminate].
  simpl in Hi, Hj. rewrite (Hpos _ _ Hri) in Hi. rewrite (Hpos _ _ Hrj) in Hj.
  assert (Z.of_nat i + 1 = Z.of_nat j + 1) by congruence. lia.
Qed.

Lemma reachable_ids_are_positions_witness :
  map res_id (resources demo_tracker) = [Some 1; Some 2] ∧
  NoDup (map res_id (resources demo_tracker)).
Proof.
  assert (H : reachable demo_tracker) by (by exists None, demo_calls).
  split; [reflexivity|]. exact (proj2 (reachable_ids_are_positions demo_tracker H)).
Defined.

(** ** [update_status]: which record, which fields, which error *)

Lemma passed_over_take self rid :
  reachable self → ∀ k, (Z.of_nat k + 1 ≤ rid)%Z →
  passed_over rid (take k (resources self)).
Proof.
  intros Hreach k Hk. apply Forall_forall. intros x Hx.
  apply list_elem_of_lookup in Hx as [j Hj].
  assert (Hjk : (j < k)%nat).
  { apply lookup_lt_Some in Hj. rewrite length_take in Hj. lia. }
  rewrite lookup_take_lt in Hj by done.
  pose proof (reachable_ids self Hreach) as Hids.
  assert (Hm : map res_id (resources self) !! j = Some (res_id x)).
  { by rewrite list_lookup_fmap, Hj. }
  rewrite Hids, lookup_ids_upto in Hm by (by apply lookup_lt_Some in Hj).
  exists (Z.of_nat j + 1). split; [congruence|lia].
Qed.

Lemma update_status_in_range self rid s :
  reachable self → 1 ≤ rid ≤ Z.of_nat (length (resources self)) →
  ∃ r, resources self !! Z.to_nat (rid - 1) = Some r ∧
       update_status rid s self =
         Ok (true,
             {| resources := <[Z.to_nat (rid - 1) := set_status s r]> (resources self);
                db_file := Some (<[Z.to_nat (rid - 1) := set_status s r]>
                                   (resources self)) |}).
Proof.
  intros Hreach Hin. pose proof (reachable_ids self Hreach) as Hids.
  set (k := Z.to_nat (rid - 1)).
  assert (Hk : (k < length (resources self))%nat) by lia.
  destruct (lookup_lt_is_Some_2 _ _ Hk) as [r Hr]. exists r. split; [done|].
  assert (Hid : res_id r = Some rid).
  { assert (Hm : map res_id (resources self) !! k = Some (res_id r)).
    { by rewrite list_lookup_fmap, Hr. }
    rewrite Hids, lookup_ids_upto in Hm by done.
    injection Hm as <-. f_equal. lia. }
  assert (Ht : is_Some (res_title r)).
  { pose proof (reachable_complete self Hreach) as Hall.
    rewrite Forall_forall in Hall.
    by destruct (Hall r (list_elem_of_lookup_2 _ _ _ Hr)) as (_ & ? & _). }
  rewrite (insert_take_drop _ _ _ Hk).
  apply update_status_found; [| apply passed_over_take; [done|lia] | done | done].
  symmetry. by apply take_drop_middle.
Qed.

(** X3. In a store that started empty, [update_status(id, s)] returns
    [True] exactly for the identifiers 1, ..., number of records; it then
    sets the status of the record at position [id - 1], saves, and leaves
    every other position as it was.  For any other identifier it returns
    [False] and changes nothing. *)
Theorem update_status_by_position (self : tracker) (resource_id : Z) (status : string) :
  reachable self →
  (1 ≤ resource_id ≤ Z.of_nat (length (resources self)) →
   ∃ r, resources self !! Z.to_nat (resource_id - 1) = Some r ∧
        update_status resource_id status self =
          Ok (true,
              {| resources := <[Z.to_nat (resource_id - 1) := set_status status r]>
                                (resources self);
                 db_file := Some (<[Z.to_nat (resource_id - 1) := set_status status r]>
                                    (resources self)) |})) ∧
  (¬ (1 ≤ resource_id ≤ Z.of_nat (length (resources self))) →
   update_status resource_id status self = Ok (false, self)).
Proof.
  intros Hreach. pose proof (reachable_ids self Hreach) as Hids. split.
  - by apply update_status_in_range.
  - intros Hout. unfold update_status. rewrite update_loop_absent; [done|].
    destruct (decide (resource_id < 1)) as [Hlo|Hhi].
    + apply Forall_forall. intros x Hx. apply list_elem_of_lookup in Hx as [j Hj].
      assert (Hm : map res_id (resources self) !! j = Some (res_id x)).
      { by rewrite list_lookup_fmap, Hj. }
      rewrite Hids, lookup_ids_upto in Hm by (by apply lookup_lt_Some in Hj).
      exists (Z.of_nat j + 1). split; [congruence|lia].
    + rewrite <- (firstn_all (resources self)).
      apply passed_over_take; [done|lia].
Qed.

Lemma update_status_by_position_witness :
  ∃ r, resources demo_tracker !! 0%nat = Some r ∧
       update_status 1 "archived" demo_tracker =
         Ok (true,
             {| resources := <[0%nat := set_status "archived" r]> (resources demo_tracker);
                db_file := Some (<[0%nat := set_status "archived" r]>
                                   (resources demo_tracker)) |}).
Proof.
  assert (H : reachable demo_tracker) by (by exists None, demo_calls).
  apply (proj1 (update_status_by_position demo_tracker 1 "archived" H)).
  simpl. lia.
Defined.

(** X4. On any store, whatever [update_status] returns, it leaves the
    number of records and every field other than the status of every
    record as they were; when it returns [False] the whole state is
    unchanged, and when it returns [True] the file holds the new list. *)
Theorem update_status_touches_status_only
    (self self' : tracker) (resource_id : Z) (status : string) (found : bool) :
  update_status resource_id status self = Ok (found, self') →
  map other_fields (resources self') = map other_fields (resources self) ∧
  length (resources self') = length (resources self) ∧
  (found = false → self' = self) ∧
  (found = true → db_file self' = Some (resources self')).
Proof.
  intros Hupd.
  apply update_status_Ok in Hupd as [(-> & -> & _)|(-> & rs' & m & Hl & _ & ->)].
  - by repeat split.
  - apply update_loop_other_fields in Hl. simpl. split; [done|].
    split; [|by split]. apply (f_equal length) in Hl. by rewrite !length_map in Hl.
Qed.

Lemma update_status_touches_status_only_witness :
  ∃ self',
    update_status 1 "completed" shared_id_store = Ok (true, self') ∧
    map other_fields (resources self') = map other_fields (resources shared_id_store).
Proof.
  eexists. split; [reflexivity|].
  exact (proj1 (update_status_touches_status_only shared_id_store _ 1 "completed" true
                  eq_refl)).
Defined.

(** X5. [update_status] returns [True] exactly when the list splits into
    records that carry other identifiers, a record that has the identifier
    asked for and a ["title"] key, and a rest; the new list differs from
    the old one in the status of that one record, so a later record with
    the same identifier is not updated. *)
Theorem update_status_first_match
    (self self' : tracker) (resource_id : Z) (status : string) :
  update_status resource_id status self = Ok (true, self') ↔
  ∃ pre r post,
    resources self = (pre ++ r :: post)%list ∧
    passed_over resource_id pre ∧ res_id r = Some resource_id ∧
    is_Some (res_title r) ∧
    self' = {| resources := (pre ++ set_status status r :: post)%list;
               db_file := Some (pre ++ set_status status r :: post)%list |}.
Proof.
  split.
  - intros Hupd.
    apply update_status_Ok in Hupd as [(? & _)|(_ & rs' & m & Hl & Ht & ->)];
      [discriminate|].
    pose proof (update_loop_cases resource_id status (resources self)) as Hc.
    rewrite Hl in Hc. destruct Hc as (pre & r & post & Hrs & Hpre & Hr & -> & ->).
    by exists pre, r, post.
  - intros (pre & r & post & Hrs & Hpre & Hr & Ht & ->).
    by apply update_status_found.
Qed.

Lemma update_status_first_match_witness :
  ∃ self',
    update_status 1 "completed" shared_id_store = Ok (true, self') ∧
    map res_status (resources self') = [Some "completed"; Some "archived"; None].
Proof.
  eexists. split.
  - apply (proj2 (update_status_first_match shared_id_store _ 1 "completed")).
    exists [], no_notes_record, [set_status "archived" no_notes_record; bare_record].
    repeat split; [constructor | by eexists].
  - reflexivity.
Defined.



(** ** [list_resources] *)

Lemma status_pass_dec status r : Decision (status_pass status r).
Proof. destruct status; simpl; apply _. Defined.

#[global] Existing Instance status_pass_dec.

Lemma tag_pass_dec tag r : Decision (tag_pass tag r).
Proof. destruct tag; simpl; apply _. Defined.

#[global] Existing Instance tag_pass_dec.

Lemma filter_bool_decide {A} (P : A → Prop) `{!∀ x, Decision (P x)} (l : list A) :
  List.filter (fun x => bool_decide (P x)) l = filter P l.
Proof.
  induction l as [|x l IH]; [done|]. simpl. rewrite filter_cons.
  case_bool_decide; [rewrite decide_True by done | rewrite decide_False by done];
    by rewrite IH.
Qed.

Lemma filter_all {A} (P : A → Prop) `{!∀ x, Decision (P x)} (l : list A) :
  (∀ x, P x) → filter P l = l.
Proof.
  intros HP. induction l as [|x l IH]; [done|].
  by rewrite filter_cons_True, IH.
Qed.

Lemma lower_empty s : lower s = "" ↔ s = "".
Proof. destruct s; simpl; split; (done || discriminate). Qed.

Lemma list_resources_status status self :
  (if truthy status
   then List.filter (fun r => bool_decide (res_status r = status)) (resources self)
   else resources self) = filter (status_pass status) (resources self).
Proof.
  destruct status as [s|]; simpl.
  - case_decide as Hs.
    + symmetry. apply filter_all. by left.
    + rewrite filter_bool_decide. apply list_filter_iff. intros r. simpl.
      split; [by right | by intros [?|?]].
  - symmetry. by apply filter_all.
Qed.

Lemma list_resources_tag tag (rs : list resource) :
  (if truthy tag
   then List.filter
          (fun r => bool_decide (lower (default "" tag) ∈ map lower (tags_of r))) rs
   else rs) = filter (tag_pass tag) rs.
Proof.
  destruct tag as [t|]; simpl.
  - case_decide as Ht.
    + symmetry. apply filter_all. by left.
    + rewrite filter_bool_decide. apply list_filter_iff. intros r. simpl.
      rewrite list_elem_of_fmap, Exists_exists. split.
      * intros (t' & Ht' & Hin). right. by exists t'.
      * intros [?|(t' & Hin & Ht')]; [done|]. by exists t'.
  - symmetry. by apply filter_all.
Qed.

Lemma list_resources_filter status tag self :
  list_resources status tag self =
  filter (fun r => tag_pass tag r ∧ status_pass status r) (resources self).
Proof.
  unfold list_resources. cbv zeta.
  by rewrite list_resources_status, list_resources_tag, list_filter_filter.
Qed.

(** X7. [list_resources] returns, in store order, exactly the records
    that pass both filters: the status filter keeps the records whose
    status is the given string, the tag filter those with a tag equal to
    the given one up to letter case; a filter that is left out or is the
    empty string keeps everything, so without filters the whole list is
    returned. *)
Theorem list_resources_keeps_matching (status tag : option string) (self : tracker) :
  list_resources status tag self =
    filter (fun r => status_pass status r ∧ tag_pass tag r) (resources self) ∧
  list_resources status tag self `sublist_of` resources self ∧
  list_resources None None self = resources self ∧
  list_resources (Some "") (Some "") self = resources self.
Proof.
  assert (H : list_resources status tag self =
              filter (fun r => status_pass status r ∧ tag_pass tag r) (resources self)).
  { rewrite list_resources_filter. apply list_filter_iff. tauto. }
  split; [done|]. split; [rewrite H; apply sublist_filter|].
  split; rewrite list_resources_filter; apply filter_all; intros r; simpl; auto.
Qed.

(** X8. The tag filter of [list_resources] ignores letter case: two tag
    arguments with the same lowercase form give the same result. *)
Theorem list_resources_tag_case (status : option string) (t t' : string) (self : tracker) :
  lower t = lower t' →
  list_resources status (Some t) self = list_resources status (Some t') self.
Proof.
  intros Hl. rewrite !list_resources_filter. apply list_filter_iff. intros r. simpl.
  assert (Hemp : t = "" ↔ t' = "").
  { by rewrite <- (lower_empty t), <- (lower_empty t'), Hl. }
  rewrite Hl. tauto.
Qed.

Lemma list_resources_tag_case_witness :
  list_resources None (Some "PYTHON") demo_tracker =
  list_resources None (Some "python") demo_tracker.
Proof. exact (list_resources_tag_case None "PYTHON" "python" demo_tracker eq_refl). Defined.

Lemma filter_ext_Forall {A} (P Q : A → Prop)
    `{!∀ x, Decision (P x), !∀ x, Decision (Q x)} (l : list A) :
  Forall (fun x => P x ↔ Q x) l → filter P l = filter Q l.
Proof.
  induction 1 as [|x l Hx _ IH]; [done|]. rewrite !filter_cons, IH.
  destruct (decide (P x)), (decide (Q x)); tauto.
Qed.

Lemma filter_sublist_impl {A} (P Q : A → Prop)
    `{!∀ x, Decision (P x), !∀ x, Decision (Q x)} (l : list A) :
  (∀ x, P x → Q x) → filter P l `sublist_of` filter Q l.
Proof.
  intros HPQ. induction l as [|x l IH]; [done|]. rewrite !filter_cons.
  destruct (decide (P x)) as [HP|HP], (decide (Q x)) as [HQ|HQ].
  - by apply sublist_skip.
  - destruct HQ. by apply HPQ.
  - by apply sublist_cons.
  - done.
Qed.

Lemma count_where_status s rs :
  count_where status_of s rs =
  (length (filter (fun r => res_status r = Some s) rs) +
   (if decide (s = "unknown")
    then length (filter (fun r => res_status r = None) rs) else 0))%nat.
Proof.
  induction rs as [|r rs IH]; [by case_decide|].
  rewrite count_where_cons, IH, !filter_cons. unfold status_of.
  destruct (res_status r) as [x|] eqn:Hr; simpl;
    repeat case_decide; simplify_eq/=; lia.
Qed.

(** X9. For a non-empty status [s] the counter [by_status[s]] of
    [get_statistics] is the number of records that
    [list_resources(status=s)] returns, except for ["unknown"]: records
    without a ["status"] key are counted there but are not listed.  A
    counter that would be 0 has no entry. *)
Theorem by_status_counts_listed (self : tracker) (s : string) :
  s ≠ "" →
  by_status (get_statistics self) !! s =
  optional_count
    (length (list_resources (Some s) None self) +
     (if decide (s = "unknown")
      then length (filter (fun r => res_status r = None) (resources self))
      else 0))%nat.
Proof.
  intros Hs. unfold get_statistics. cbn [by_status].
  rewrite stats_fold_by_status. cbn [acc_by_status].
  rewrite lookup_fold_incr_empty, count_where_status, list_resources_filter.
  do 3 f_equal. apply list_filter_iff. intros r. simpl. split; [by auto|].
  by intros [_ [?|?]].
Qed.

Lemma by_status_counts_listed_witness :
  by_status (get_statistics three_status_store) !! "completed" =
  optional_count (length (list_resources (Some "completed") None three_status_store) + 0)%nat.
Proof.
  exact (by_status_counts_listed three_status_store "completed" ltac:(discriminate)).
Defined.

(** ** [search] and the other operations *)

Lemma string_app_nil_r s : s +:+ "" = s.
Proof.
  induction s as [|c s IH]; [done|].
  change (String c (s +:+ "") = String c s). by rewrite IH.
Qed.

Lemma string_app_assoc s1 s2 s3 : (s1 +:+ s2) +:+ s3 = s1 +:+ s2 +:+ s3.
Proof.
  induction s1 as [|c s1 IH]; [done|].
  change (String c ((s1 +:+ s2) +:+ s3) = String c (s1 +:+ s2 +:+ s3)). by rewrite IH.
Qed.

Lemma is_substring_refl s : is_substring s s.
Proof. exists "", "". by rewrite string_app_nil_r. Qed.

Lemma is_substring_trans s1 s2 s3 :
  is_substring s1 s2 → is_substring s2 s3 → is_substring s1 s3.
Proof.
  intros (a & b & ->) (c & d & ->). exists (c +:+ a), (b +:+ d).
  by rewrite !string_app_assoc.
Qed.

Lemma matches_narrow q q' r :
  is_substring (lower q) (lower q') → matches q' r → matches q r.
Proof.
  intros Hq. unfold matches.
  intros [H|[H|[H|H]]]; [left|right; left|right; right; left|right; right; right].
  - destruct (res_title r); [|done]. simpl in *. by eapply is_substring_trans.
  - destruct (res_notes r); [|done]. simpl in *. by eapply is_substring_trans.
  - eapply Exists_impl; [done|]. intros t Ht. by eapply is_substring_trans.
  - eapply Exists_impl; [done|]. intros t Ht. by eapply is_substring_trans.
Qed.

(** X10. On a store whose records carry title and notes, every record
    that [list_resources(tag=t)] returns for a non-empty [t] is also
    returned by [search(t)]. *)
Theorem tagged_resources_are_found (self : tracker) (t : string) (r : resource) :
  Forall text_fields (resources self) → t ≠ "" →
  r ∈ list_resources None (Some t) self →
  ∃ res, search t self = Ok res ∧ r ∈ res.
Proof.
  intros Hrs Ht Hr. exists (filter (matches t) (resources self)). split.
  - unfold search. by rewrite search_loop_filter.
  - rewrite list_resources_filter in Hr.
    apply list_elem_of_filter in Hr as [[[?|Htag] _] Hin]; [done|].
    apply list_elem_of_filter. split; [|done].
    right; right; left. eapply Exists_impl; [exact Htag|].
    intros t' <-. apply is_substring_refl.
Qed.

Lemma tagged_resources_are_found_witness :
  ∃ r res,
    list_resources None (Some "Advanced") sample_store !! 0%nat = Some r ∧
    search "Advanced" sample_store = Ok res ∧ r ∈ res.
Proof.
  assert (Hrs : Forall text_fields (resources sample_store)).
  { repeat constructor; simpl; eauto. }
  assert (Hin : ∃ r, list_resources None (Some "Advanced") sample_store !! 0%nat = Some r).
  { eexists. reflexivity. }
  destruct Hin as [r Hr].
  destruct (tagged_resources_are_found sample_store "Advanced" r Hrs)
    as (res & Hs & Hres); [discriminate | by eapply list_elem_of_lookup_2 |].
  by exists r, res.
Defined.

(** X11. On a store whose records carry title and notes, a query whose
    lowercased form contains the lowercased form of another query finds a
    sub-list of what that other query finds.  (The condition is on the
    lowercased queries: lowering a piece of a text need not give a piece
    of the lowered text.) *)
Theorem search_longer_query_narrows (self : tracker) (q q' : string) :
  Forall text_fields (resources self) → is_substring (lower q) (lower q') →
  ∃ res res',
    search q self = Ok res ∧ search q' self = Ok res' ∧ res' `sublist_of` res.
Proof.
  intros Hrs Hq.
  exists (filter (matches q) (resources self)), (filter (matches q') (resources self)).
  unfold search. rewrite !search_loop_filter by done. repeat split.
  apply filter_sublist_impl. intros r. by apply matches_narrow.
Qed.

Lemma search_longer_query_narrows_witness :
  ∃ res res',
    search "clos" sample_store = Ok res ∧ search "closures" sample_store = Ok res' ∧
    res' `sublist_of` res.
Proof.
  apply (search_longer_query_narrows sample_store "clos" "closures").
  - repeat constructor; simpl; eauto.
  - by exists "", "ures".
Defined.

Lemma search_loop_app ql rs1 rs2 acc :
  search_loop ql (rs1 ++ rs2) acc =
  bind (search_loop ql rs1 acc) (fun acc' => search_loop ql rs2 acc').
Proof.
  revert acc. induction rs1 as [|r rs1 IH]; intros acc; simpl; [done|].
  destruct (search_test ql r) as [b|e]; simpl; [apply IH|done].
Qed.

Lemma search_loop_acc ql rs acc :
  search_loop ql rs acc =
  bind (search_loop ql rs []) (fun res => Ok (acc ++ res)%list).
Proof.
  revert acc. induction rs as [|r rs IH]; intros acc; simpl.
  - by rewrite app_nil_r.
  - destruct (search_test ql r) as [[]|e]; simpl; [|apply IH|done].
    rewrite (IH (acc ++ [r])%list), (IH [r]).
    destruct (search_loop ql rs []); simpl; [|done]. by rewrite <- app_assoc.
Qed.

(** X12. After [add_resource] a search returns what it returned before,
    followed by the new record if that one matches the query; a search
    that raised before raises the same exception. *)
Theorem search_after_add (a : add_args) (q : string) (self : tracker) :
  search q (snd (add_with a self)) =
  match search q self with
  | Ok res =>
      Ok (if decide (matches q (fst (add_with a self)))
          then (res ++ [fst (add_with a self)])%list else res)
  | Raise e => Raise e
  end.
Proof.
  unfold search. cbn [add_with add_resource snd fst _save_data resources].
  rewrite search_loop_app. destruct (search_loop (lower q) (resources self) []) as [res|e];
    simpl; [|done].
  rewrite search_test_matches by (split; simpl; eauto). simpl.
  by case_bool_decide; [rewrite decide_True | rewrite decide_False].
Qed.

Lemma search_test_other_fields ql r r' :
  other_fields r = other_fields r' → search_test ql r = search_test ql r'.
Proof.
  intros [= Hid Ht Hty Hu Htags Hc Hn Hd]. unfold search_test, tags_of, concepts_of.
  by rewrite Ht, Hn, Htags, Hc.
Qed.

Lemma search_loop_other_fields ql rs rs' acc acc' :
  map other_fields rs = map other_fields rs' →
  map other_fields acc = map other_fields acc' →
  same_but_status (search_loop ql rs acc) (search_loop ql rs' acc').
Proof.
  revert rs' acc acc'. induction rs as [|r rs IH]; intros [|r' rs'] acc acc' Hrs Hacc;
    try discriminate; simpl; [done|].
  simpl in Hrs.
  assert (Hr : other_fields r = other_fields r') by congruence.
  assert (Hrs' : map other_fields rs = map other_fields rs') by congruence.
  rewrite (search_test_other_fields ql r r' Hr).
  destruct (search_test ql r') as [[]|e]; simpl; [|by apply IH|done].
  apply IH; [done|]. rewrite !map_app. simpl. by rewrite Hacc, Hr.
Qed.

(** X13. The status is not searched: after an [update_status] call a
    search finds the records at the same positions as before, equal to
    the earlier ones in every field but the status, and a search that
    raised raises the same exception. *)
Theorem search_ignores_status
    (self self' : tracker) (resource_id : Z) (status q : string) (found : bool) :
  update_status resource_id status self = Ok (found, self') →
  same_but_status (search q self) (search q self').
Proof.
  intros Hupd.
  apply update_status_Ok in Hupd as [(_ & -> & _)|(_ & rs' & m & Hl & _ & ->)].
  - unfold search. by apply search_loop_other_fields.
  - unfold search. simpl. apply search_loop_other_fields; [|done].
    symmetry. by apply (update_loop_other_fields resource_id status _ _ m).
Qed.

Lemma search_ignores_status_witness :
  ∃ self',
    update_status 1 "archived" demo_tracker = Ok (true, self') ∧
    same_but_status (search "archived" demo_tracker) (search "archived" self').
Proof.
  eexists. split; [reflexivity|].
  exact (search_ignores_status demo_tracker _ 1 "archived" "archived" true eq_refl).
Defined.

(** ** The graph and the other operations *)

Lemma update_loop_map {A} (f : resource → A) rid s rs rs' m :
  (∀ r, f (set_status s r) = f r) →
  update_loop rid s rs = Ok (Some (rs', m)) → map f rs' = map f rs.
Proof.
  intros Hf Hl. pose proof (update_loop_cases rid s rs) as Hc. rewrite Hl in Hc.
  destruct Hc as (pre & r & post & -> & _ & _ & -> & _).
  rewrite !map_app. simpl. by rewrite Hf.
Qed.

Lemma update_status_map {A} (f : resource → A) rid s self self' found :
  (∀ r, f (set_status s r) = f r) →
  update_status rid s self = Ok (found, self') →
  map f (resources self') = map f (resources self).
Proof.
  intros Hf Hupd.
  apply update_status_Ok in Hupd as [(_ & -> & _)|(_ & rs' & m & Hl & _ & ->)]; [done|].
  simpl. by apply (update_loop_map f rid s _ _ m).
Qed.

Lemma build_knowledge_graph_fmap self :
  build_knowledge_graph self =
  foldl (fun g cs => connect_all cs g) ∅ (map concepts_of (resources self)).
Proof. unfold build_knowledge_graph. by rewrite (foldl_fmap (fun g cs => connect_all cs g)). Qed.

Lemma get_statistics_fmap self :
  get_statistics self =
  {| total_resources := length (resources self);
     by_status := foldl (fun m k => incr k m) ∅ (map status_of (resources self));
     by_type := foldl (fun m k => incr k m) ∅ (map type_of (resources self));
     unique_concepts := size (union_over concepts_of (resources self));
     unique_tags := size (union_over tags_of (resources self)) |}.
Proof.
  unfold get_statistics.
  rewrite stats_fold_by_status, stats_fold_by_type, stats_fold_concepts, stats_fold_tags.
  cbn [acc_by_status acc_by_type acc_all_concepts acc_all_tags].
  rewrite !(left_id_L ∅ (∪)).
  by rewrite !(foldl_fmap (fun m k => incr k m)).
Qed.

Lemma union_over_fmap (f : resource → list string) rs :
  union_over f rs = ⋃ (map (fun l => list_to_set l) (map f rs)).
Proof. unfold union_over. by rewrite <- list_fmap_compose. Qed.

(** X14. [update_status] changes nothing but the status counters: the
    concept graph, the related concepts of every concept, the counters by
    type, the numbers of distinct concepts and tags and the total are the
    same before and after the call. *)
Theorem update_status_keeps_graph_and_counts
    (self self' : tracker) (resource_id : Z) (status : string) (found : bool) :
  update_status resource_id status self = Ok (found, self') →
  build_knowledge_graph self' = build_knowledge_graph self ∧
  (∀ c, get_related_concepts c self' = get_related_concepts c self) ∧
  by_type (get_statistics self') = by_type (get_statistics self) ∧
  unique_concepts (get_statistics self') = unique_concepts (get_statistics self) ∧
  unique_tags (get_statistics self') = unique_tags (get_statistics self) ∧
  total_resources (get_statistics self') = total_resources (get_statistics self).
Proof.
  intros Hupd.
  assert (Hg : build_knowledge_graph self' = build_knowledge_graph self).
  { rewrite !build_knowledge_graph_fmap.
    by rewrite (update_status_map concepts_of _ _ _ _ _ (fun _ => eq_refl) Hupd). }
  split; [done|]. split; [intros c; unfold get_related_concepts; by rewrite Hg|].
  rewrite !get_statistics_fmap. cbn [by_type unique_concepts unique_tags total_resources].
  rewrite !union_over_fmap.
  rewrite (update_status_map type_of _ _ _ _ _ (fun _ => eq_refl) Hupd).
  rewrite (update_status_map concepts_of _ _ _ _ _ (fun _ => eq_refl) Hupd).
  rewrite (update_status_map tags_of _ _ _ _ _ (fun _ => eq_refl) Hupd).
  repeat split.
  rewrite <- (length_map type_of (resources self')), <- (length_map type_of (resources self)).
  by rewrite (update_status_map type_of _ _ _ _ _ (fun _ => eq_refl) Hupd).
Qed.

Lemma update_status_keeps_graph_and_counts_witness :
  ∃ self',
    update_status 1 "archived" demo_tracker = Ok (true, self') ∧
    build_knowledge_graph self' = build_knowledge_graph demo_tracker.
Proof.
  eexists. split; [reflexivity|].
  exact (proj1 (update_status_keeps_graph_and_counts demo_tracker _ 1 "archived" true
                  eq_refl)).
Defined.

(** X15. Building the graph after [add_resource] gives the graph built
    before with the concepts of the new record connected into it: an edge
    exists afterwards exactly if it existed before or joins two positions
    of the new concept list, and a record with at most one concept leaves
    the graph as it was. *)
Theorem add_resource_extends_graph (a : add_args) (self : tracker) :
  build_knowledge_graph (snd (add_with a self)) =
    connect_all (default [] (arg_concepts a)) (build_knowledge_graph self) ∧
  (∀ x y, y ∈ adj (build_knowledge_graph (snd (add_with a self))) x ↔
          y ∈ adj (build_knowledge_graph self) x ∨
          co_occur (default [] (arg_concepts a)) x y) ∧
  ((length (default [] (arg_concepts a)) ≤ 1)%nat →
   build_knowledge_graph (snd (add_with a self)) = build_knowledge_graph self).
Proof.
  assert (H : build_knowledge_graph (snd (add_with a self)) =
              connect_all (default [] (arg_concepts a)) (build_knowledge_graph self)).
  { unfold build_knowledge_graph. cbn [add_with add_resource snd _save_data resources].
    rewrite foldl_snoc. by destruct (arg_concepts a). }
  split; [done|]. split.
  - intros x y. rewrite H. apply connect_all_adj.
  - intros Hlen. rewrite H.
    destruct (default [] (arg_concepts a)) as [|c [|c' cs]]; simpl in *; [done|done|lia].
Qed.

Lemma add_resource_extends_graph_witness :
  build_knowledge_graph
    (snd (add_with (AddArgs "C" "book" "" None "" (Some ["solo"]) "2024-01-02 08:00:00")
            demo_tracker)) =
  build_knowledge_graph demo_tracker.
Proof.
  apply (proj2 (proj2 (add_resource_extends_graph
    (AddArgs "C" "book" "" None "" (Some ["solo"]) "2024-01-02 08:00:00") demo_tracker))).
  simpl. lia.
Defined.

Lemma graph_ext (g1 g2 : gmap string (gset string)) :
  (∀ a, a ∈ dom g1 ↔ a ∈ dom g2) →
  (∀ a b, b ∈ adj g1 a ↔ b ∈ adj g2 a) → g1 = g2.
Proof.
  intros Hdom Hadj. apply map_eq. intros a.
  specialize (Hdom a). specialize (Hadj a). rewrite !elem_of_dom in Hdom.
  unfold adj in Hadj.
  destruct (g1 !! a) as [s1|], (g2 !! a) as [s2|]; simpl in *.
  - f_equal. by apply set_eq.
  - destruct Hdom as [Hdom _]. by destruct Hdom.
  - destruct Hdom as [_ Hdom]. by destruct Hdom.
  - done.
Qed.

(** X16. The graph depends only on which concept lists occur in the
    store: two stores with the same concept lists, in any order and any
    number of copies, have the same graph. *)
Theorem graph_depends_on_concept_lists (self self' : tracker) :
  (∀ cs, cs ∈ map concepts_of (resources self) ↔
         cs ∈ map concepts_of (resources self')) →
  build_knowledge_graph self = build_knowledge_graph self'.
Proof.
  intros Hsame.
  assert (Hex : ∀ (P : list string → Prop) t t',
            (∀ cs, cs ∈ map concepts_of (resources t) → cs ∈ map concepts_of (resources t')) →
            (∃ r, r ∈ resources t ∧ P (concepts_of r)) →
            ∃ r, r ∈ resources t' ∧ P (concepts_of r)).
  { intros P t t' Hsub (r & Hr & HP).
    assert (Hin : concepts_of r ∈ map concepts_of (resources t)).
    { apply list_elem_of_fmap. by exists r. }
    apply Hsub, list_elem_of_fmap in Hin as (r' & Heq & Hr').
    exists r'. split; [done|]. by rewrite <- Heq. }
  apply graph_ext.
  - intros a. rewrite !build_knowledge_graph_dom.
    split; apply (Hex (fun cs => a ∈ cs ∧ (2 ≤ length cs)%nat)); intros cs; apply Hsame.
  - intros a b. rewrite !build_knowledge_graph_adj.
    split; apply (Hex (fun cs => co_occur cs a b)); intros cs; apply Hsame.
Qed.

Lemma graph_depends_on_concept_lists_witness :
  build_knowledge_graph chain_store =
  build_knowledge_graph
    {| resources := rev (resources chain_store) ++ resources chain_store;
       db_file := None |}.
Proof.
  apply graph_depends_on_concept_lists. intros cs.
  change (cs ∈ [["a"; "b"]; ["b"; "c"]] ↔
          cs ∈ [["b"; "c"]; ["a"; "b"]; ["a"; "b"]; ["b"; "c"]]).
  rewrite !elem_of_cons, !elem_of_nil. tauto.
Defined.

(** X17. [get_related_concepts(a)] lists every related concept once, and
    [b] is in the list exactly when some record holds [a] and [b] at two
    different positions of its concept list; for [b] different from [a]
    this is: some record has both among its concepts. *)
Theorem related_concepts_are_cooccurring (self : tracker) (a b : string) :
  NoDup (get_related_concepts a self) ∧
  (b ∈ get_related_concepts a self ↔
   ∃ r, r ∈ resources self ∧ co_occur (concepts_of r) a b) ∧
  (a ≠ b →
   (b ∈ get_related_concepts a self ↔
    ∃ r, r ∈ resources self ∧ a ∈ concepts_of r ∧ b ∈ concepts_of r)).
Proof.
  split; [|split].
  - unfold get_related_concepts.
    destruct (build_knowledge_graph self !! a); [apply NoDup_elements|constructor].
  - by rewrite elem_of_get_related_concepts, build_knowledge_graph_adj.
  - intros Hab. rewrite elem_of_get_related_concepts, build_knowledge_graph_adj.
    split; intros (r & Hr & H); exists r; (split; [done|]).
    + destruct H as (i & j & _ & Hi & Hj).
      split; apply list_elem_of_lookup; eauto.
    + destruct H as [[i Hi]%list_elem_of_lookup [j Hj]%list_elem_of_lookup].
      exists i, j. repeat split; [|done|done]. intros ->. congruence.
Qed.

Lemma related_concepts_are_cooccurring_witness :
  "c" ∈ get_related_concepts "b" chain_store.
Proof.
  apply (proj2 (proj2 (proj2 (related_concepts_are_cooccurring chain_store "b" "c"))
                  ltac:(discriminate))).
  eexists. split; [apply list_elem_of_further, list_elem_of_here|].
  split; [apply list_elem_of_here | apply list_elem_of_further, list_elem_of_here].
Defined.

(** X18. Every key of the graph and every related concept is a concept
    of some record, so the graph has at most as many keys as
    [get_statistics] reports distinct concepts. *)
Theorem graph_keys_are_counted_concepts (self : tracker) :
  dom (build_knowledge_graph self) ⊆ union_over concepts_of (resources self) ∧
  (∀ a b, b ∈ get_related_concepts a self →
          b ∈ union_over concepts_of (resources self)) ∧
  (size (dom (build_knowledge_graph self)) ≤ unique_concepts (get_statistics self))%nat.
Proof.
  assert (Hin : ∀ r c, r ∈ resources self → c ∈ concepts_of r →
            c ∈ union_over concepts_of (resources self)).
  { intros r c Hr Hc. unfold union_over. apply elem_of_union_list.
    exists (list_to_set (concepts_of r)). split; [|by apply elem_of_list_to_set].
    apply list_elem_of_fmap. by exists r. }
  assert (Hdom : dom (build_knowledge_graph self) ⊆ union_over concepts_of (resources self)).
  { intros a. rewrite build_knowledge_graph_dom. intros (r & Hr & Ha & _). by eapply Hin. }
  split; [done|]. split.
  - intros a b. rewrite elem_of_get_related_concepts, build_knowledge_graph_adj.
    intros (r & Hr & i & j & _ & _ & Hj). eapply Hin; [done|].
    apply list_elem_of_lookup. eauto.
  - rewrite get_statistics_fmap. cbn [unique_concepts]. by apply subseteq_size.
Qed.

Lemma graph_keys_are_counted_concepts_witness :
  "c" ∈ union_over concepts_of (resources chain_store).
Proof.
  apply (proj1 (proj2 (graph_keys_are_counted_concepts chain_store)) "b" "c").
  vm_compute. apply list_elem_of_here.
Defined.

(** ** Statistics and the other operations *)

Lemma sum_counts_insert k n (m : gmap string nat) :
  m !! k = None → sum_counts (<[k := n]> m) = (n + sum_counts m)%nat.
Proof.
  intros Hk. unfold sum_counts. rewrite map_fold_insert_L; [done| |done].
  intros. lia.
Qed.

Lemma sum_counts_incr k (m : gmap string nat) :
  sum_counts (incr k m) = S (sum_counts m).
Proof.
  unfold incr. destruct (m !! k) as [n|] eqn:Hk; simpl.
  - rewrite <- (insert_delete_eq m k (n + 1)%nat).
    rewrite sum_counts_insert by apply lookup_delete_eq.
    rewrite <- (insert_delete_id m k n Hk) at 2.
    rewrite sum_counts_insert by apply lookup_delete_eq. lia.
  - by rewrite sum_counts_insert.
Qed.

Lemma sum_counts_fold (ks : list string) (m : gmap string nat) :
  sum_counts (foldl (fun m k => incr k m) m ks) = (sum_counts m + length ks)%nat.
Proof.
  revert m. induction ks as [|k ks IH]; intros m; simpl; [lia|].
  rewrite IH, sum_counts_incr. lia.
Qed.

(** X19. The counters by status add up to the number of records, and so
    do the counters by type. *)
Theorem counters_add_up (self : tracker) :
  sum_counts (by_status (get_statistics self)) = total_resources (get_statistics self) ∧
  sum_counts (by_type (get_statistics self)) = total_resources (get_statistics self).
Proof.
  rewrite get_statistics_fmap. cbn [by_status by_type total_resources].
  rewrite !sum_counts_fold, !length_map. unfold sum_counts. by rewrite map_fold_empty.
Qed.

Lemma size_list_to_set_le (l : list string) :
  (size (list_to_set l : gset string) ≤ length l)%nat.
Proof.
  induction l as [|x l IH]; [by rewrite list_to_set_nil, size_empty|].
  rewrite list_to_set_cons, size_union_alt, size_singleton. simpl.
  assert (H : list_to_set l ∖ {[x]} ⊆ (list_to_set l : gset string)).
  { by intros y [Hy _]%elem_of_difference. }
  apply subseteq_size in H. lia.
Qed.

Lemma union_over_snoc f rs r :
  union_over f (rs ++ [r]) = union_over f rs ∪ list_to_set (f r).
Proof.
  unfold union_over. rewrite map_app, union_list_app_L. simpl.
  by rewrite (right_id_L ∅ (∪)).
Qed.

(** X20. [add_resource] raises the total by one, the counter of
    ["in_progress"] by one and the counter of the record's type by one,
    and leaves the other counters alone; the number of distinct concepts
    does not fall and grows by at most the number of concepts given. *)
Theorem statistics_after_add (a : add_args) (self : tracker) :
  let before := get_statistics self in
  let after := get_statistics (snd (add_with a self)) in
  total_resources after = S (total_resources before) ∧
  (∀ s, by_status after !! s =
        if decide (s = "in_progress")
        then Some (S (default 0%nat (by_status before !! s)))
        else by_status before !! s) ∧
  (∀ t, by_type after !! t =
        if decide (t = arg_type a)
        then Some (S (default 0%nat (by_type before !! t)))
        else by_type before !! t) ∧
  (unique_concepts before ≤ unique_concepts after
     ≤ unique_concepts before + length (default [] (arg_concepts a)))%nat.
Proof.
  cbv zeta. rewrite !get_statistics_fmap.
  cbn [total_resources by_status by_type unique_concepts].
  assert (Hres : resources (snd (add_with a self)) =
                 (resources self ++ [fst (add_with a self)])%list) by done.
  assert (Hst : status_of (fst (add_with a self)) = "in_progress") by done.
  assert (Hty : type_of (fst (add_with a self)) = arg_type a) by done.
  assert (Hcs : concepts_of (fst (add_with a self)) = default [] (arg_concepts a)).
  { unfold concepts_of. simpl. by destruct (arg_concepts a). }
  rewrite Hres, !map_app. cbn [map].
  rewrite !foldl_snoc, length_app, union_over_snoc, Hst, Hty, Hcs.
  split; [simpl; lia|]. split; [|split].
  - intros s. rewrite lookup_incr.
    case_decide; case_decide; simplify_eq; [|done]. f_equal. lia.
  - intros t. rewrite lookup_incr.
    case_decide; case_decide; simplify_eq; [|done]. f_equal. lia.
  - split.
    + apply subseteq_size. apply union_subseteq_l.
    + rewrite size_union_alt.
      pose proof (size_list_to_set_le (default [] (arg_concepts a))) as Hle.
      assert (Hsub : list_to_set (default [] (arg_concepts a)) ∖
                       union_over concepts_of (resources self)
                     ⊆ (list_to_set (default [] (arg_concepts a)) : gset string)).
      { by intros y [Hy _]%elem_of_difference. }
      apply subseteq_size in Hsub. lia.
Qed.

(** ** Comma-separated input *)

Lemma str_split_nonempty sep s : ∃ piece rest, str_split sep s = piece :: rest.
Proof.
  induction s as [|c s (piece & rest & IH)]; simpl; [by eauto|].
  case_decide; [by eauto|]. rewrite IH. by eauto.
Qed.

Lemma str_split_no_sep sep s : Forall (fun p => ¬ has_char sep p) (str_split sep s).
Proof.
  induction s as [|c s IH]; simpl.
  - constructor; [tauto|constructor].
  - case_decide as Hc.
    + constructor; [simpl; tauto|done].
    + destruct (str_split sep s) as [|piece rest].
      * constructor; [simpl; tauto|constructor].
      * apply Forall_cons in IH as [Hp Hrest].
        constructor; [simpl; tauto|done].
Qed.

Lemma has_char_lstrip x s : has_char x (lstrip s) → has_char x s.
Proof.
  induction s as [|c s IH]; simpl; [done|].
  destruct (is_space c); simpl; tauto.
Qed.

Lemma has_char_rstrip x s : has_char x (rstrip s) → has_char x s.
Proof.
  induction s as [|c s IH]; simpl; [done|].
  destruct (rstrip s) as [|c' t] eqn:Hr.
  - destruct (is_space c); simpl; tauto.
  - simpl in *. tauto.
Qed.

Lemma first_char_lstrip s c : first_char (lstrip s) = Some c → is_space c = false.
Proof.
  induction s as [|c' s IH]; simpl; [done|].
  destruct (is_space c') eqn:Hc; [done|]. simpl. by intros [= <-].
Qed.

Lemma first_char_rstrip s c : first_char (rstrip s) = Some c → first_char s = Some c.
Proof.
  destruct s as [|c' s]; simpl; [done|].
  destruct (rstrip s); [destruct (is_space c')|]; simpl; done.
Qed.

Lemma last_char_rstrip s c : last_char (rstrip s) = Some c → is_space c = false.
Proof.
  induction s as [|c' s IH]; simpl; [done|].
  destruct (rstrip s) as [|c'' t] eqn:Hr.
  - destruct (is_space c') eqn:Hc; simpl; [done|]. by intros [= <-].
  - done.
Qed.

Lemma clean_str_strip t : ¬ has_char "," t → str_strip t ≠ "" → clean (str_strip t).
Proof.
  intros Hcomma Hne. unfold clean, str_strip in *. repeat split; [done| | |].
  - intros H. by apply Hcomma, has_char_lstrip, has_char_rstrip.
  - intros c Hc. by apply (first_char_lstrip t), first_char_rstrip.
  - intros c. apply last_char_rstrip.
Qed.

(** X21. Every entry that the comma-separated input parser returns is
    non-empty, contains no comma and neither starts nor ends with white
    space; the empty input gives the empty list. *)
Theorem parse_list_entries_clean (text : string) :
  Forall clean (parse_list text) ∧ parse_list "" = [].
Proof.
  split; [|reflexivity]. unfold parse_list.
  pose proof (str_split_no_sep "," text) as Hsplit.
  induction Hsplit as [|t pieces Ht _ IH]; simpl; [constructor|].
  case_decide as Hs; simpl; [done|]. constructor; [by apply clean_str_strip | done].
Qed.

Lemma rstrip_id s :
  (∀ c, last_char s = Some c → is_space c = false) → rstrip s = s.
Proof.
  induction s as [|c s IH]; simpl; [done|]. intros Hlast.
  destruct s as [|c' s'].
  - simpl. by rewrite (Hlast c).
  - rewrite IH by done. done.
Qed.

Lemma lstrip_id s :
  (∀ c, first_char s = Some c → is_space c = false) → lstrip s = s.
Proof. destruct s as [|c s]; simpl; [done|]. intros H. by rewrite (H c). Qed.

Lemma str_strip_clean t : clean t → str_strip t = t ∧ str_strip (String " " t) = t.
Proof.
  intros (_ & _ & Hfirst & Hlast). unfold str_strip. simpl.
  by rewrite lstrip_id, rstrip_id.
Qed.

Lemma str_split_piece sep t :
  ¬ has_char sep t → str_split sep t = [t].
Proof.
  induction t as [|c t IH]; simpl; [done|]. intros Hc.
  rewrite decide_False by tauto. rewrite IH by tauto. done.
Qed.

Lemma str_split_app sep t r :
  ¬ has_char sep t → str_split sep (t +:+ String sep r) = t :: str_split sep r.
Proof.
  induction t as [|c t IH]; intros Hc.
  - change (str_split sep (String sep r) = "" :: str_split sep r).
    simpl. by rewrite decide_True.
  - change (str_split sep (String c (t +:+ String sep r)) = String c t :: str_split sep r).
    simpl in *. rewrite decide_False by tauto. rewrite IH by tauto. done.
Qed.

Lemma parse_list_join_from (l : list string) (lead : string) :
  Forall clean l → l ≠ [] → lead = "" ∨ lead = " " →
  parse_list (lead +:+ str_join ", " l) = l.
Proof.
  intros Hl. revert lead. induction Hl as [|t l Ht Hl IH]; intros lead Hne Hlead; [done|].
  assert (Hstrip : str_strip (lead +:+ t) = t).
  { destruct Hlead as [-> | ->]; by apply str_strip_clean. }
  assert (Hcomma : ¬ has_char "," (lead +:+ t)).
  { destruct Ht as (_ & Hc & _). destruct Hlead as [-> | ->]; simpl; [done|].
    intros [?|?]; [discriminate|done]. }
  assert (Htne : t ≠ "") by apply Ht.
  destruct l as [|t' l'].
  - simpl. unfold parse_list. rewrite str_split_piece by done. simpl.
    rewrite Hstrip. by rewrite decide_False.
  - change (str_join ", " (t :: t' :: l')) with (t +:+ ", " +:+ str_join ", " (t' :: l')).
    rewrite <- string_app_assoc.
    change (", " +:+ str_join ", " (t' :: l'))
      with (String "," (" " +:+ str_join ", " (t' :: l'))).
    unfold parse_list. rewrite str_split_app by done. simpl.
    rewrite Hstrip, decide_False by done. simpl. f_equal.
    apply (IH " "); [done | by right].
Qed.

(** X22. What is shown is what can be typed in again: for a list of
    ASCII entries ([t.isascii()]) that are non-empty, without commas and
    without white space at their ends, parsing the text [", ".join(l)]
    gives the list back.  (Entries are ASCII because [strip] removes
    white space beyond ASCII too: an entry that ends in U+00A0 does not
    come back.) *)
Theorem parse_list_join (l : list string) :
  Forall (fun t => isascii t = true) l → Forall clean l →
  parse_list (str_join ", " l) = l.
Proof.
  intros _ Hl. destruct l as [|t l]; [done|].
  apply (parse_list_join_from (t :: l) ""); [done|done|by left].
Qed.

Lemma parse_list_join_witness :
  parse_list (str_join ", " ["python"; "first-class functions"]) =
  ["python"; "first-class functions"].
Proof.
  apply parse_list_join; [by repeat constructor|].
  repeat constructor; try discriminate; simpl; try tauto;
    try (intros c [= <-]; reflexivity).
  all: intros H; repeat (destruct H as [H|H]; [discriminate|]); done.
Defined.

(** ** The add form *)

Lemma run_app calls1 calls2 self :
  run (calls1 ++ calls2) self = bind (run calls1 self) (run calls2).
Proof.
  revert self. induction calls1 as [|c calls1 IH]; intros self; simpl; [done|].
  destruct (run_call c self); simpl; [apply IH|done].
Qed.

Lemma reachable_add title ty url tags notes concepts now self :
  reachable self →
  reachable (snd (add_resource title ty url tags notes concepts now self)).
Proof.
  intros (file & calls & Hfile & Hrun).
  exists file, (calls ++ [AddResource title ty url tags notes concepts now])%list.
  split; [done|]. rewrite run_app, Hrun. done.
Qed.

(** X23. The add form of the web interface does nothing without a
    title.  With a title, on a store that started empty, it appends one
    record that carries the next identifier, the parsed tags and concepts
    and the status chosen in the form, and saves the list. *)
Theorem submit_add_form_appends
    (title resource_type url tags_input concepts_input status notes now : string)
    (self : tracker) :
  (title = "" →
   submit_add_form title resource_type url tags_input concepts_input status notes now
     self = Ok self) ∧
  (title ≠ "" → reachable self →
   let new :=
     set_status status
       (fst (add_resource title resource_type url (Some (parse_list tags_input)) notes
               (Some (parse_list concepts_input)) now self)) in
   submit_add_form title resource_type url tags_input concepts_input status notes now
     self =
   Ok {| resources := (resources self ++ [new])%list;
         db_file := Some (resources self ++ [new])%list |}).
Proof.
  unfold submit_add_form. split.
  - intros ->. reflexivity.
  - intros Htitle Hreach. cbv zeta. simpl truthy. rewrite (decide_False (P := title = "")) by done.
    assert (Hparse : ∀ text,
              (if if decide (text = "") then false else true then parse_list text else [])
              = parse_list text).
    { intros text. case_decide as Ht; [by subst|done]. }
    rewrite !Hparse.
    set (added := add_resource title resource_type url (Some (parse_list tags_input)) notes
                    (Some (parse_list concepts_input)) now self).
    assert (Hres : resources (snd added) = (resources self ++ [fst added])%list) by done.
    assert (Hreach' : reachable (snd added)) by (by apply reachable_add).
    clearbody added.
    destruct (update_status_in_range (snd added)
                (Z.of_nat (length (resources (snd added)))) status Hreach')
      as (r & Hr & Hupd).
    { rewrite Hres, length_app. simpl. lia. }
    assert (Hpos : Z.to_nat (Z.of_nat (length (resources (snd added))) - 1)
                   = length (resources self)).
    { rewrite Hres, length_app. simpl. lia. }
    rewrite Hpos in Hr, Hupd. rewrite Hupd. unfold bind. cbn [snd].
    rewrite Hres in Hr |- *.
    rewrite lookup_app_r, Nat.sub_diag in Hr by done. injection Hr as <-.
    assert (Hins : <[length (resources self) := set_status status (fst added)]>
                     (resources self ++ [fst added])%list =
                   (resources self ++ [set_status status (fst added)])%list).
    { rewrite insert_app_r_alt, Nat.sub_diag by done. done. }
    by rewrite Hins.
Qed.

Lemma submit_add_form_appends_witness :
  ∃ self',
    submit_add_form "Monads" "book" "" "haskell, FP" "monads,functors" "completed" ""
      "2024-01-03 09:00:00" demo_tracker = Ok self' ∧
    map res_id (resources self') = [Some 1; Some 2; Some 3] ∧
    map res_status (resources self') =
      [Some "in_progress"; Some "completed"; Some "completed"].
Proof.
  assert (H : reachable demo_tracker) by (by exists None, demo_calls).
  eexists. split.
  - exact (proj2 (submit_add_form_appends "Monads" "book" "" "haskell, FP"
                    "monads,functors" "completed" "" "2024-01-03 09:00:00" demo_tracker)
             ltac:(discriminate) H).
  - split; reflexivity.
Defined.

(** ** [visualize_connections] *)

Lemma sorted_Permutation l : sorted l ≡ₚ l.
Proof. apply merge_sort_Permutation. Qed.

Lemma sorted_StronglySorted l : StronglySorted String.le (sorted l).
Proof. apply StronglySorted_merge_sort; apply _. Qed.

Lemma elem_of_sorted l x : x ∈ sorted l ↔ x ∈ l.
Proof. by rewrite sorted_Permutation. Qed.

Lemma sorted_nil_iff l : sorted l = [] ↔ l = [].
Proof.
  split; [|by intros ->]. intros H. apply Permutation_nil_r.
  by rewrite <- (sorted_Permutation l), H.
Qed.

Lemma get_related_concepts_adj self c :
  get_related_concepts c self = elements (adj (build_knowledge_graph self) c).
Proof.
  unfold get_related_concepts, adj.
  destruct (build_knowledge_graph self !! c); [done|]. simpl.
  by rewrite elements_empty.
Qed.

(** X24. For a non-empty concept [visualize_connections(concept)] prints
    either the single text "No connections found for ..." when the
    concept has no related concept, or a heading followed by one bullet
    for each related concept, each once, in ascending order. *)
Theorem visualize_one_concept (self : tracker) (concept : string) :
  concept ≠ "" →
  ∃ l,
    StronglySorted String.le l ∧ NoDup l ∧
    (∀ b, b ∈ l ↔ b ∈ get_related_concepts concept self) ∧
    visualize_connections (Some concept) self =
      match l with
      | [] => [line_none_for concept]
      | _ => line_connections_for concept :: map line_bullet l
      end.
Proof.
  intros Hc. exists (sorted (get_related_concepts concept self)).
  split; [apply sorted_StronglySorted|]. split; [|split].
  - rewrite sorted_Permutation, get_related_concepts_adj. apply NoDup_elements.
  - intros b. apply elem_of_sorted.
  - unfold visualize_connections. cbv zeta. simpl truthy.
    rewrite (decide_False (P := concept = "")) by done.
    rewrite get_related_concepts_adj. unfold adj. simpl default.
    set (related := default ∅ (build_knowledge_graph self !! concept)).
    case_decide as Hrel.
    + rewrite Hrel, elements_empty. done.
    + destruct (sorted (elements related)) as [|x l] eqn:Hs; [|done].
      apply sorted_nil_iff, elements_empty_iff in Hs. destruct Hrel.
      by apply leibniz_equiv.
Qed.

Lemma visualize_one_concept_witness :
  ∃ l,
    StronglySorted String.le l ∧ NoDup l ∧
    (∀ b, b ∈ l ↔ b ∈ get_related_concepts "b" chain_store) ∧
    visualize_connections (Some "b") chain_store =
      match l with
      | [] => [line_none_for "b"]
      | _ => line_connections_for "b" :: map line_bullet l
      end.
Proof. exact (visualize_one_concept chain_store "b" ltac:(discriminate)). Defined.

Lemma key_le_trans : Transitive key_le.
Proof. intros p q r. unfold key_le. apply transitivity. Qed.

Lemma key_le_total : Total key_le.
Proof. intros p q. unfold key_le. apply (total String.le). Qed.

#[global] Existing Instance key_le_trans.
#[global] Existing Instance key_le_total.

Lemma sorted_items_Permutation g : sorted_items g ≡ₚ map_to_list g.
Proof. apply merge_sort_Permutation. Qed.

Lemma elem_of_sorted_items g k v : (k, v) ∈ sorted_items g ↔ g !! k = Some v.
Proof. by rewrite sorted_items_Permutation, elem_of_map_to_list. Qed.

Lemma graph_key_nonempty self k s :
  build_knowledge_graph self !! k = Some s → s ≠ ∅.
Proof.
  intros Hk Hs.
  assert (Hdom : k ∈ dom (build_knowledge_graph self)).
  { apply elem_of_dom. by exists s. }
  apply build_knowledge_graph_dom in Hdom as (r & Hr & Hkr & Hlen).
  destruct (co_occur_exists _ _ Hkr Hlen) as [b Hb].
  assert (Hadj : b ∈ adj (build_knowledge_graph self) k).
  { apply build_knowledge_graph_adj. by exists r. }
  unfold adj in Hadj. rewrite Hk in Hadj. simpl in Hadj. subst s.
  by apply elem_of_empty in Hadj.
Qed.

Lemma flat_map_fst {A B C} (f : A * B → list C) (g : A → list C) (l : list (A * B)) :
  Forall (fun p => f p = g p.1) l → flat_map f l = flat_map g (l.*1).
Proof. induction 1 as [|p l Hp _ IH]; simpl; [done|]. by rewrite Hp, IH. Qed.

(** X25. Without a concept [visualize_connections] prints the title,
    then for every concept that shares a record with another one, in
    ascending order and each once, a heading followed by its related
    concepts in ascending order, at least one of them; the closing hint
    "No connections found. ..." is printed exactly when there is no such
    concept. *)
Theorem visualize_overview (self : tracker) :
  ∃ keys,
    StronglySorted String.le keys ∧ NoDup keys ∧
    (∀ k, k ∈ keys ↔
          ∃ r, r ∈ resources self ∧ k ∈ concepts_of r ∧
               (2 ≤ length (concepts_of r))%nat) ∧
    (∀ k, k ∈ keys → get_related_concepts k self ≠ []) ∧
    visualize_connections None self =
      ((line_overview ::
        flat_map (fun k => line_heading k ::
                           map line_branch (sorted (get_related_concepts k self)))
                 keys) ++
       match keys with [] => [line_hint] | _ => [] end)%list.
Proof.
  set (g := build_knowledge_graph self).
  exists ((sorted_items g).*1).
  assert (Hkeys : ∀ k, k ∈ (sorted_items g).*1 ↔ k ∈ dom g).
  { intros k. rewrite list_elem_of_fmap, elem_of_dom. split.
    - intros ([k' v] & -> & Hin). apply elem_of_sorted_items in Hin. by exists v.
    - intros [v Hv]. exists (k, v). split; [done|]. by apply elem_of_sorted_items. }
  split; [|split; [|split; [|split]]].
  - apply (StronglySorted_fmap fst key_le String.le); [by intros [] []|].
    apply StronglySorted_merge_sort; apply _.
  - rewrite sorted_items_Permutation. apply NoDup_fst_map_to_list.
  - intros k. rewrite Hkeys. apply build_knowledge_graph_dom.
  - intros k [v Hv]%Hkeys%elem_of_dom. rewrite get_related_concepts_adj.
    unfold adj. fold g. rewrite Hv. simpl. intros He%elements_empty_iff.
    by apply (graph_key_nonempty self k v Hv), leibniz_equiv.
  - unfold visualize_connections. cbv zeta. simpl truthy. cbv iota. fold g.
    f_equal.
    + f_equal. apply flat_map_fst, Forall_forall. intros [k v] Hin.
      apply elem_of_sorted_items in Hin. simpl.
      rewrite decide_False by (by apply (graph_key_nonempty self k v)).
      rewrite get_related_concepts_adj. unfold adj. fold g. by rewrite Hin.
    + case_decide as Hg.
      * rewrite Hg. unfold sorted_items. by rewrite map_to_list_empty.
      * destruct (sorted_items g) as [|p l] eqn:Hs; [|done]. destruct Hg.
        apply map_to_list_empty_iff, Permutation_nil_r.
        by rewrite <- sorted_items_Permutation, Hs.
Qed.

Example visualize_chain_b :
  visualize_connections (Some "b") chain_store =
  [line_connections_for "b"; line_bullet "a"; line_bullet "c"].
Proof. vm_compute. reflexivity. Qed.

Example visualize_chain_overview :
  visualize_connections None chain_store =
  [line_overview; line_heading "a"; line_branch "b"; line_heading "b"; line_branch "a";
   line_branch "c"; line_heading "c"; line_branch "b"].
Proof. vm_compute. reflexivity. Qed.

Example visualize_no_edges :
  visualize_connections None lone_concept_store = [line_overview; line_hint].
Proof. vm_compute. reflexivity. Qed.

(** ** The resource page of the web interface *)

(** X26. With the type filter on ["All"], the page shows what
    [list_resources] returns for the chosen status and tag, where the
    choice ["All"] stands for a filter left out; this needs the chosen
    status and tag to be non-empty, since [list_resources] takes an empty
    string for no filter and the page does not.  A chosen type keeps of
    these the records of that type. *)
Theorem page_filter_agrees_with_list_resources
    (status_filter type_filter tag_filter : string) (self : tracker) :
  status_filter ≠ "" → tag_filter ≠ "" →
  page_filter status_filter "All" tag_filter self =
    list_resources (filter_choice status_filter) (filter_choice tag_filter) self ∧
  page_filter status_filter type_filter tag_filter self =
    filter (fun r => type_filter = "All" ∨ res_type r = Some type_filter)
      (list_resources (filter_choice status_filter) (filter_choice tag_filter) self).
Proof.
  intros Hs Ht.
  assert (Hgen : ∀ ty, page_filter status_filter ty tag_filter self =
            filter (fun r => ty = "All" ∨ res_type r = Some ty)
              (list_resources (filter_choice status_filter) (filter_choice tag_filter)
                 self)).
  { intros ty. unfold page_filter. cbv zeta.
    rewrite !list_resources_filter, !filter_bool_decide.
    assert (Hall : filter (fun r => tag_pass None r ∧ status_pass None r) (resources self)
                   = resources self) by (by apply filter_all).
    rewrite Hall.
    assert (H1 : (if decide (status_filter ≠ "All")
                  then filter (fun r => res_status r = Some status_filter) (resources self)
                  else resources self) =
                 filter (status_pass (filter_choice status_filter)) (resources self)).
    { unfold filter_choice. destruct (decide (status_filter = "All")) as [->|Hne].
      - rewrite decide_False by (by intros []). symmetry. by apply filter_all.
      - rewrite decide_True by done. apply list_filter_iff. intros r. simpl.
        split; [by right | by intros [?|?]]. }
    rewrite H1.
    set (l1 := filter (status_pass (filter_choice status_filter)) (resources self)).
    assert (H2 : (if decide (ty ≠ "All")
                  then filter (fun r => res_type r = Some ty) l1 else l1) =
                 filter (fun r => ty = "All" ∨ res_type r = Some ty) l1).
    { destruct (decide (ty = "All")) as [->|Hne].
      - rewrite decide_False by (by intros []). symmetry. apply filter_all. by left.
      - rewrite decide_True by done. apply list_filter_iff. intros r.
        split; [by right | by intros [?|?]]. }
    rewrite H2.
    set (l2 := filter (fun r => ty = "All" ∨ res_type r = Some ty) l1).
    assert (H3 : (if decide (tag_filter ≠ "All")
                  then filter (fun r => lower tag_filter ∈ map lower (tags_of r)) l2
                  else l2) =
                 filter (tag_pass (filter_choice tag_filter)) l2).
    { unfold filter_choice. destruct (decide (tag_filter = "All")) as [->|Hne].
      - rewrite decide_False by (by intros []). symmetry. by apply filter_all.
      - rewrite decide_True by done. apply list_filter_iff. intros r. simpl.
        rewrite list_elem_of_fmap, Exists_exists. split.
        + intros (t' & Ht' & Hin). right. by exists t'.
        + intros [?|(t' & Hin & Ht')]; [done|]. by exists t'. }
    rewrite H3. unfold l2, l1. rewrite !list_filter_filter.
    apply list_filter_iff. intros r. tauto. }
  split; [|apply Hgen]. rewrite Hgen. apply filter_all. by left.
Qed.

Lemma page_filter_agrees_with_list_resources_witness :
  page_filter "completed" "All" "python" demo_tracker =
  list_resources (Some "completed") (Some "python") demo_tracker.
Proof.
  exact (proj1 (page_filter_agrees_with_list_resources "completed" "All" "python"
                  demo_tracker ltac:(discriminate) ltac:(discriminate))).
Defined.

Lemma list_index_Some x l : is_Some (list_index x l) ↔ x ∈ l.
Proof.
  induction l as [|y l IH]; simpl.
  - rewrite elem_of_nil. split; [by intros [? ?]|done].
  - rewrite elem_of_cons. case_decide as Hy.
    + split; [by left | by eauto].
    + rewrite fmap_is_Some, IH. split; [by right|]. by intros [?|?].
Qed.

(** X27. The status selector that the page shows for each record finds
    its preselected entry exactly when the record has no status or one of
    the three known ones; for any other status the page raises.  Stores
    built through [add_resource] and through [update_status] with one of
    the three statuses never raise there. *)
Theorem status_selector_needs_known_status (self : tracker) (r : resource) :
  (is_Some (status_selector_index r) ↔ res_status r = None ∨ status_in_domain r) ∧
  (reachable_in_domain self → r ∈ resources self → is_Some (status_selector_index r)).
Proof.
  assert (Hiff : ∀ x, is_Some (status_selector_index x) ↔
                      res_status x = None ∨ status_in_domain x).
  { intros x. unfold status_selector_index, status_in_domain.
    rewrite list_index_Some. fold status_domain.
    destruct (res_status x) as [s|]; simpl.
    - split; [intros Hs; right; by exists s|]. by intros [?|(s' & [= <-] & Hs)].
    - split; [by left|]. intros _. apply list_elem_of_here. }
  split; [apply Hiff|].
  intros (file & calls & Hfile & Hcalls & Hrun) Hr.
  apply Hiff. right.
  assert (Hall : Forall status_in_domain (resources self)).
  { apply (run_Forall domain_call status_in_domain) with (calls := calls) (self := init file).
    - intros. exists "in_progress". split; [done|]. apply list_elem_of_here.
    - intros rid s x Hs _. by exists s.
    - done.
    - simpl. rewrite Hfile. constructor.
    - done. }
  by apply (proj1 (Forall_forall _ _) Hall).
Qed.

Lemma status_selector_needs_known_status_witness :
  ∃ r, resources demo_tracker !! 1%nat = Some r ∧ is_Some (status_selector_index r).
Proof.
  assert (H : reachable_in_domain demo_tracker).
  { exists None, demo_calls. split; [reflexivity|]. split; [|reflexivity].
    repeat constructor. }
  eexists. split; [reflexivity|].
  apply (proj2 (status_selector_needs_known_status demo_tracker _) H).
  apply list_elem_of_further, list_elem_of_here.
Defined.

Example status_selector_raises :
  status_selector_index (set_status "done" no_notes_record) = None.
Proof. reflexivity. Qed.

(** ** Call sequences on a store that started empty *)

(** X28. In a store that started empty and was reached by calls that
    all returned, every record has all nine keys, so [search] raises no
    [KeyError] on it: it returns the records that match the query, in the
    order of the store. *)
Theorem reachable_records_are_complete (self : tracker) (q : string) :
  reachable self →
  Forall complete (resources self) ∧
  search q self = Ok (filter (matches q) (resources self)).
Proof.
  intros Hreach. pose proof (reachable_complete self Hreach) as Hall.
  split; [done|]. unfold search. rewrite search_loop_filter; [done|].
  eapply Forall_impl; [exact Hall|]. intros r (_ & Ht & _ & _ & _ & _ & Hn & _).
  by split.
Qed.

Lemma reachable_records_are_complete_witness :
  Forall complete (resources demo_tracker) ∧
  search "rust" demo_tracker = Ok (filter (matches "rust") (resources demo_tracker)).
Proof.
  apply (reachable_records_are_complete demo_tracker "rust").
  by exists None, demo_calls.
Defined.

Lemma map_res_id_insert (rs : list resource) k r s :
  rs !! k = Some r →
  map res_id (<[k := set_status s r]> rs) = map res_id rs.
Proof.
  intros Hk. change (res_id <$> <[k := set_status s r]> rs = res_id <$> rs).
  rewrite list_fmap_insert. apply list_insert_id. by rewrite list_lookup_fmap, Hk.
Qed.

(** X29. In a store that started empty, after [update_status(id, s)] on
    an existing identifier with a non-empty [s], the record with that
    identifier is listed by [list_resources(status=s)] and by
    [list_resources] for no other non-empty status. *)
Theorem updated_record_is_listed_under_its_status
    (self : tracker) (resource_id : Z) (status : string) :
  reachable self → 1 ≤ resource_id ≤ Z.of_nat (length (resources self)) →
  status ≠ "" →
  ∃ self',
    update_status resource_id status self = Ok (true, self') ∧
    ∀ s, s ≠ "" →
         ((∃ r, r ∈ list_resources (Some s) None self' ∧ res_id r = Some resource_id)
          ↔ s = status).
Proof.
  intros Hreach Hin Hs.
  destruct (update_status_in_range self resource_id status Hreach Hin) as (r & Hr & Hupd).
  set (k := Z.to_nat (resource_id - 1)) in *.
  eexists. split; [exact Hupd|]. intros s Hsne.
  pose proof (reachable_ids self Hreach) as Hids.
  assert (Hk : (k < length (resources self))%nat) by (by eapply lookup_lt_Some).
  assert (Hat : ∀ j x, <[k := set_status status r]> (resources self) !! j = Some x →
                       res_id x = Some resource_id → j = k).
  { intros j x Hj Hx.
    assert (Hm : map res_id (<[k := set_status status r]> (resources self)) !! j
                 = Some (res_id x)) by (by rewrite list_lookup_fmap, Hj).
    rewrite (map_res_id_insert _ _ _ _ Hr), Hids in Hm.
    apply lookup_lt_Some in Hj. rewrite length_insert in Hj.
    rewrite lookup_ids_upto in Hm by done.
    assert (Z.of_nat j + 1 = resource_id) by congruence. lia. }
  rewrite list_resources_filter. cbn [resources]. split.
  - intros (x & Hx & Hid). apply list_elem_of_filter in Hx as [[_ [?|Hst]] Hmem]; [done|].
    apply list_elem_of_lookup in Hmem as [j Hj].
    pose proof (Hat j x Hj Hid) as ->.
    rewrite list_lookup_insert_eq in Hj by done. injection Hj as <-.
    simpl in Hst. congruence.
  - intros ->. exists (set_status status r). split.
    + apply list_elem_of_filter. split; [split; [done|by right]|].
      apply list_elem_of_lookup. exists k. by rewrite list_lookup_insert_eq.
    + simpl. assert (Hm : map res_id (resources self) !! k = Some (res_id r)).
      { by rewrite list_lookup_fmap, Hr. }
      rewrite Hids, lookup_ids_upto in Hm by done. injection Hm as <-. f_equal. lia.
Qed.

Lemma updated_record_is_listed_under_its_status_witness :
  ∃ self',
    update_status 1 "completed" demo_tracker = Ok (true, self') ∧
    ∃ r, r ∈ list_resources (Some "completed") None self' ∧ res_id r = Some 1.
Proof.
  assert (H : reachable demo_tracker) by (by exists None, demo_calls).
  destruct (updated_record_is_listed_under_its_status demo_tracker 1 "completed" H)
    as (self' & Hupd & Hlist); [simpl; lia | discriminate |].
  exists self'. split; [exact Hupd|].
  by apply (proj2 (Hlist "completed" ltac:(discriminate))).
Defined.
